(** * Healthcare translation prototype: the App component of src/App.jsx

    A shallow embedding of the single React component of the repository
    and the properties its specification states about it.

    Conventions of the embedding.

    - A JavaScript string is a [string]; its elements stand for UTF-16 code
      units below 256 (Latin-1).  On such strings [toLowerCase], the white
      space of [trim] and the case folding of a regular expression with
      flag [i] are the tables written out in [Module Js].
    - The state of the component is the record [View], one field per
      [useState] cell of lines 42-51; [App] adds what lives outside the
      React state: the two refs, [localStorage] and the calls of
      [translateText] that wait for their response.
    - A function declared in the body of the component reads the state of
      the render that created it, and the state setters act on the current
      state.  So a function that reads state takes the [View] of its render
      as first argument ([r]) next to the current [App].  A click runs the
      function of the current render.  The handlers of the recognition
      object are assigned in the effect of lines 57-110, whose dependency
      list is [[inputLang]] (line 110): they are the functions of the render
      in which that effect last ran, kept in the field [handlers].
    - Built-ins of the host whose results the component only passes around
      ([JSON.parse], [JSON.stringify], [Number.prototype.toString]) are the
      fields of the class [Host]; every property below holds for every host.
      The sessions state is a list of session records; the load of a stored
      text that parses to any other value is modelled apart
      ([loadEffectValue]).
      Failures of [localStorage.setItem] (quota) and a missing
      [window.speechSynthesis] are outside the model. *)

From Stdlib Require Import Ascii.
From Stdlib Require String.
From stdpp Require Import base list strings gmap pretty.

(** ** JavaScript string primitives on Latin-1 code units *)

Module Js.

Definition unit_in (lo hi : N) (c : ascii) : bool :=
  ((lo <=? N_of_ascii c) && (N_of_ascii c <=? hi))%N.

(** [\w] of a regular expression without flag [u]: [A-Za-z0-9_]. *)
Definition isWordChar (c : ascii) : bool :=
  unit_in 48 57 c || unit_in 65 90 c || unit_in 97 122 c || (N_of_ascii c =? 95)%N.

(** An ASCII letter. *)
Definition isLetter (c : ascii) : bool :=
  unit_in 65 90 c || unit_in 97 122 c.

(** [String.prototype.toLowerCase] on one code unit below 256: A-Z, and
    the Latin-1 capitals U+00C0-U+00DE without the multiplication sign
    U+00D7.  Units from 256 on are not modelled; among them U+0130 and
    U+212A have a lower case that holds an ASCII letter. *)
Definition lowerUnit (c : ascii) : ascii :=
  if unit_in 65 90 c || (unit_in 192 222 c && negb (N_of_ascii c =? 215)%N)
  then ascii_of_N (N_of_ascii c + 32)
  else c.

(** Canonicalize of a regular expression with flag [i] and without flag [u]:
    the upper-case code unit, when it is a single code unit and does not
    move a unit from outside ASCII into ASCII.  The upper cases of U+00B5
    and U+00FF lie outside Latin-1 and equal no other unit's; U+00DF has a
    two-unit upper case: the three are kept. *)
Definition canonicalize (c : ascii) : ascii :=
  if unit_in 97 122 c || (unit_in 224 254 c && negb (N_of_ascii c =? 247)%N)
  then ascii_of_N (N_of_ascii c - 32)
  else c.

(** WhiteSpace and LineTerminator units below 256. *)
Definition isWhiteSpace (c : ascii) : bool :=
  unit_in 9 13 c || (N_of_ascii c =? 32)%N || (N_of_ascii c =? 160)%N.

Definition units (s : string) : list ascii := String.list_ascii_of_string s.
Definition str (l : list ascii) : string := String.string_of_list_ascii l.

Definition toLowerCase (s : string) : string := str (map lowerUnit (units s)).

Fixpoint trimStart (l : list ascii) : list ascii :=
  match l with
  | c :: l' => if isWhiteSpace c then trimStart l' else l
  | [] => []
  end.

Definition trim (s : string) : string :=
  str (rev (trimStart (rev (trimStart (units s))))).

(** [s.startsWith(p)]. *)
Definition startsWith (s p : string) : bool := String.prefix p s.

(** [s.split('-')[0]]: the text before the first hyphen. *)
Fixpoint beforeHyphen (s : string) : string :=
  match s with
  | String c s' => if Ascii.eqb c "-" then "" else String c (beforeHyphen s')
  | EmptyString => ""
  end.

(** *** Regular expressions of the shape the component builds

    [new RegExp(`\\b${abbr}\\b`, 'gi')] for a key made of letters is the
    sequence: word boundary, the letters of the key, word boundary. *)

Inductive atom : Type :=
  | WordBoundary
  | Lit (c : ascii).

Definition pattern : Type := list atom.

Definition isWordAt (o : option ascii) : bool :=
  match o with
  | Some c => isWordChar c
  | None => false
  end.

(** One attempt at a fixed index: [prev] is the unit before the index (none
    at index 0), [s] the input from the index on.  The result is the number
    of units matched.  Letters are compared under the flag [i]. *)
Fixpoint matchHere (p : pattern) (prev : option ascii) (s : list ascii) : option nat :=
  match p with
  | [] => Some 0
  | WordBoundary :: p' =>
      if xorb (isWordAt prev) (isWordAt (head s)) then matchHere p' prev s else None
  | Lit c :: p' =>
      match s with
      | d :: s' =>
          if Ascii.eqb (canonicalize c) (canonicalize d)
          then S <$> matchHere p' (Some d) s'
          else None
      | [] => None
      end
  end.

(** [String.prototype.replace] with a global regular expression and a
    replacement text without [$]: the input is scanned from the left; at a
    match the replacement is emitted and the scan resumes behind the match
    ([skip] counts the units of the match still to pass); an empty match
    moves the scan one unit on. *)
Fixpoint replaceFrom (p : pattern) (by_ : list ascii)
    (prev : option ascii) (skip : nat) (s : list ascii) : list ascii :=
  match s with
  | [] =>
      match skip, matchHere p prev [] with
      | 0, Some _ => by_
      | _, _ => []
      end
  | c :: s' =>
      match skip with
      | S k => replaceFrom p by_ (Some c) k s'
      | 0 =>
          match matchHere p prev s with
          | Some (S n) => by_ ++ replaceFrom p by_ (Some c) n s'
          | Some 0 => by_ ++ c :: replaceFrom p by_ (Some c) 0 s'
          | None => c :: replaceFrom p by_ (Some c) 0 s'
          end
      end
  end.

Definition replace (p : pattern) (by_ : string) (s : string) : string :=
  str (replaceFrom p (units by_) None 0 (units s)).

(** The letters of a key and the closing boundary. *)
Definition lits (key : list ascii) : pattern := map Lit key ++ [WordBoundary].

(** The regular expression [\bkey\b] with flags [gi]. *)
Definition wholeWordUnits (key : list ascii) : pattern := WordBoundary :: lits key.

Definition wholeWord (key : string) : pattern := wholeWordUnits (units key).

End Js.

(** ** Static catalogs (lines 5-39) *)

Record Language : Type := mkLanguage {
  code : string;
  name : string;
  voice : string
}.

Definition LANGUAGES : list Language := [
  mkLanguage "en" "English" "en-US";
  mkLanguage "es" "Spanish" "es-ES";
  mkLanguage "zh" "Chinese (Mandarin)" "zh-CN";
  mkLanguage "hi" "Hindi" "hi-IN";
  mkLanguage "ar" "Arabic" "ar-SA";
  mkLanguage "fr" "French" "fr-FR";
  mkLanguage "de" "German" "de-DE";
  mkLanguage "pt" "Portuguese" "pt-BR";
  mkLanguage "ru" "Russian" "ru-RU";
  mkLanguage "ja" "Japanese" "ja-JP";
  mkLanguage "ko" "Korean" "ko-KR";
  mkLanguage "it" "Italian" "it-IT";
  mkLanguage "tr" "Turkish" "tr-TR";
  mkLanguage "pl" "Polish" "pl-PL";
  mkLanguage "nl" "Dutch" "nl-NL";
  mkLanguage "vi" "Vietnamese" "vi-VN";
  mkLanguage "th" "Thai" "th-TH";
  mkLanguage "id" "Indonesian" "id-ID";
  mkLanguage "uk" "Ukrainian" "uk-UA";
  mkLanguage "ro" "Romanian" "ro-RO"
].

(** [MEDICAL_TERMS]: the pairs in the order [Object.keys] lists them.  No
    key holds a character that is special in a regular expression, and no
    expansion holds a [$]. *)
Definition MEDICAL_TERMS : list (string * string) := [
  ("bp", "blood pressure");
  ("hr", "heart rate");
  ("temp", "temperature");
  ("meds", "medications");
  ("rx", "prescription");
  ("dx", "diagnosis");
  ("tx", "treatment");
  ("hx", "history");
  ("sx", "symptoms")
].

(** ** Enhancement (lines 126-133)

    The loop over [Object.keys(MEDICAL_TERMS)] with [MEDICAL_TERMS[abbr]]
    is the fold over the pairs. *)

Definition enhanceMedicalTerms (text : string) : string :=
  foldl (fun enhanced '(abbr, full) => Js.replace (Js.wholeWord abbr) full enhanced)
        (Js.toLowerCase text) MEDICAL_TERMS.

(** ** Data of the component *)

(** A session record (lines 165-172). *)
Record Session : Type := mkSession {
  id : Z;
  timestamp : string;
  session_inputLang : string;
  session_outputLang : string;
  original : string;
  translated : string
}.

(** What the component takes from the host without looking inside.
    [JSON_parse] is [JSON.parse] on a stored history text that either is
    not valid JSON or is the text of an array of session records: [None]
    is the SyntaxError it throws, [Some l] the array it returns.  With it
    the sessions state is a list of records throughout.  A stored text
    that parses to any other value (null, a number, an array of something
    else) is not covered by it: the load effect on every stored text is
    [loadEffectValue] below, where the sessions state is any parsed value.
    [number] is the type of the numbers of a parsed response. *)
Class Host : Type := {
  number : Type;
  Number_toString : number → string;
  JSON_parse : string → option (list Session);
  JSON_stringify : list Session → string
}.

Inductive Error : Type :=
  | TypeError
  | SyntaxError
  | InvalidStateError.

(** The completion of a piece of code: a value, or an exception thrown. *)
Inductive Completion (A : Type) : Type :=
  | Normal (a : A)
  | Throw (e : Error).
Arguments Normal {A} a.
Arguments Throw {A} e.

Global Instance Completion_bind : MBind Completion := fun A B k c =>
  match c with
  | Normal a => k a
  | Throw e => Throw e
  end.

(** The state of one render: the ten [useState] cells (lines 42-51). *)
Record View : Type := mkView {
  inputLang : string;
  outputLang : string;
  isListening : bool;
  originalText : string;
  translatedText : string;
  interimText : string;
  isTranslating : bool;
  showDisclaimer : bool;
  error : string;
  sessions : list Session
}.

(** The recognition object of [recognitionRef.current].  [handlers] is the
    render whose [onresult], [onerror] and [onend] it carries: they are
    assigned in the effect of lines 57-110, which runs at mount and again
    only when [inputLang] changes (line 110). *)
Record SpeechRecognition : Type := mkSpeechRecognition {
  continuous : bool;
  interimResults : bool;
  recognition_lang : string;
  started : bool;
  handlers : View
}.

Record Voice : Type := mkVoice {
  voice_name : string;
  voice_lang : string
}.

Record Utterance : Type := mkUtterance {
  utterance_text : string;
  utterance_voice : option Voice;
  utterance_lang : string;
  rate : QArith_base.Q;
  pitch : QArith_base.Q
}.

(** [window.speechSynthesis]: the voices of the host and the utterances
    queued or being spoken. *)
Record SpeechSynthesis : Type := mkSpeechSynthesis {
  getVoices : list Voice;
  speaking : list Utterance
}.

(** A [translateText] call that waits for its response: its argument and
    the render whose [translateText] was called. *)
Record Request : Type := mkRequest {
  request_text : string;
  request_render : View
}.

Record App : Type := mkApp {
  view : View;
  recognitionRef : option SpeechRecognition;
  synthRef : SpeechSynthesis;
  localStorage : gmap string string;
  inFlight : list Request;
  (** ['webkitSpeechRecognition' in window || 'SpeechRecognition' in window] *)
  hasSpeechRecognition : bool
}.

(** One result of a recognition event: the transcript of its first
    alternative and its [isFinal] flag. *)
Record SpeechResult : Type := mkSpeechResult {
  transcript : string;
  isFinal : bool
}.

Record ResultEvent : Type := mkResultEvent {
  resultIndex : nat;
  results : list SpeechResult
}.

(** The two clock readings of [saveSession]. *)
Record Clock : Type := mkClock {
  Date_now : Z;
  toISOString : string
}.

Definition SESSIONS_KEY : string := "healthcareTranslationSessions".
Definition DISCLAIMER_KEY : string := "disclaimerShown".

(** Truthiness of a string: the empty string is falsy. *)
Definition truthy (s : string) : bool := negb (String.eqb s "").

(** Truthiness of the result of [localStorage.getItem]: [null] is falsy. *)
Definition truthyItem (o : option string) : bool :=
  match o with
  | Some s => truthy s
  | None => false
  end.

(** *** State setters *)

Definition setView (f : View → View) (a : App) : App :=
  mkApp (f (view a)) (recognitionRef a) (synthRef a) (localStorage a)
        (inFlight a) (hasSpeechRecognition a).

Definition setInputLang (x : string) : App → App :=
  setView (fun v => mkView x (outputLang v) (isListening v) (originalText v)
    (translatedText v) (interimText v) (isTranslating v) (showDisclaimer v)
    (error v) (sessions v)).

Definition setOutputLang (x : string) : App → App :=
  setView (fun v => mkView (inputLang v) x (isListening v) (originalText v)
    (translatedText v) (interimText v) (isTranslating v) (showDisclaimer v)
    (error v) (sessions v)).

Definition setIsListening (x : bool) : App → App :=
  setView (fun v => mkView (inputLang v) (outputLang v) x (originalText v)
    (translatedText v) (interimText v) (isTranslating v) (showDisclaimer v)
    (error v) (sessions v)).

(** [setOriginalText(f)], the updater form: [f] receives the current text. *)
Definition setOriginalText (f : string → string) : App → App :=
  setView (fun v => mkView (inputLang v) (outputLang v) (isListening v)
    (f (originalText v)) (translatedText v) (interimText v) (isTranslating v)
    (showDisclaimer v) (error v) (sessions v)).

Definition setTranslatedText (x : string) : App → App :=
  setView (fun v => mkView (inputLang v) (outputLang v) (isListening v)
    (originalText v) x (interimText v) (isTranslating v) (showDisclaimer v)
    (error v) (sessions v)).

Definition setInterimText (x : string) : App → App :=
  setView (fun v => mkView (inputLang v) (outputLang v) (isListening v)
    (originalText v) (translatedText v) x (isTranslating v) (showDisclaimer v)
    (error v) (sessions v)).

Definition setIsTranslating (x : bool) : App → App :=
  setView (fun v => mkView (inputLang v) (outputLang v) (isListening v)
    (originalText v) (translatedText v) (interimText v) x (showDisclaimer v)
    (error v) (sessions v)).

Definition setShowDisclaimer (x : bool) : App → App :=
  setView (fun v => mkView (inputLang v) (outputLang v) (isListening v)
    (originalText v) (translatedText v) (interimText v) (isTranslating v) x
    (error v) (sessions v)).

Definition setError (x : string) : App → App :=
  setView (fun v => mkView (inputLang v) (outputLang v) (isListening v)
    (originalText v) (translatedText v) (interimText v) (isTranslating v)
    (showDisclaimer v) x (sessions v)).

Definition setSessions (x : list Session) : App → App :=
  setView (fun v => mkView (inputLang v) (outputLang v) (isListening v)
    (originalText v) (translatedText v) (interimText v) (isTranslating v)
    (showDisclaimer v) (error v) x).

Definition setRecognition (r : option SpeechRecognition) (a : App) : App :=
  mkApp (view a) r (synthRef a) (localStorage a) (inFlight a) (hasSpeechRecognition a).

Definition setSynth (s : SpeechSynthesis) (a : App) : App :=
  mkApp (view a) (recognitionRef a) s (localStorage a) (inFlight a) (hasSpeechRecognition a).

Definition setStorage (m : gmap string string) (a : App) : App :=
  mkApp (view a) (recognitionRef a) (synthRef a) m (inFlight a) (hasSpeechRecognition a).

Definition setInFlight (q : list Request) (a : App) : App :=
  mkApp (view a) (recognitionRef a) (synthRef a) (localStorage a) q (hasSpeechRecognition a).

(** [localStorage.setItem] and [localStorage.removeItem]. *)
Definition setItem (k v : string) (a : App) : App :=
  setStorage (<[k := v]> (localStorage a)) a.

Definition removeItem (k : string) (a : App) : App :=
  setStorage (delete k (localStorage a)) a.

(** *** The recognition object *)

(** [LANGUAGES.find(l => l.code === c)?.voice] *)
Definition voiceOf (c : string) : option string :=
  voice <$> find (fun l => String.eqb (code l) c) LANGUAGES.

(** [x || 'en-US'] for an [x] that is a string or undefined. *)
Definition orEnUS (x : option string) : string :=
  match x with
  | Some s => if truthy s then s else "en-US"
  | None => "en-US"
  end.

(** [start()]: an InvalidStateError when the recognition has started. *)
Definition start (r : SpeechRecognition) : Completion SpeechRecognition :=
  if started r then Throw InvalidStateError
  else Normal (mkSpeechRecognition (continuous r) (interimResults r)
                 (recognition_lang r) true (handlers r)).

Definition stop (r : SpeechRecognition) : SpeechRecognition :=
  mkSpeechRecognition (continuous r) (interimResults r) (recognition_lang r)
    false (handlers r).

Definition setLang (l : string) (r : SpeechRecognition) : SpeechRecognition :=
  mkSpeechRecognition (continuous r) (interimResults r) l (started r) (handlers r).

(** ** Values of a parsed response

    [JObj] lists the properties of the parsed object, each key once. *)

#[warnings="-register-all"] Inductive json (num : Type) : Type :=
  | JNull
  | JBool (b : bool)
  | JNum (n : num)
  | JStr (s : string)
  | JArr (l : list (json num))
  | JObj (properties : list (string * json num)).
Arguments JNull {num}.
Arguments JBool {num} b.
Arguments JNum {num} n.
Arguments JStr {num} s.
Arguments JArr {num} l.
Arguments JObj {num} properties.

Section Component.
Context `{Host}.

(** [v[0]]: [None] is undefined; reading a property of [null] throws. *)
Definition index0 (v : json number) : Completion (option (json number)) :=
  match v with
  | JNull => Throw TypeError
  | JArr l => Normal (head l)
  | JStr (String c _) => Normal (Some (JStr (String c "")))
  | JStr EmptyString => Normal None
  | JObj ps => Normal (snd <$> find (fun p => String.eqb (fst p) "0") ps)
  | JBool _ | JNum _ => Normal None
  end.

(** [String(v)].  An array is its elements joined by commas, null giving
    the empty text.  An object of a parsed response has no callable
    property: with an own property [toString] no conversion is left and a
    TypeError is thrown; without one it is "[object Object]".  (The depth
    of the host's stack is not modelled.) *)
Fixpoint toString (v : json number) : Completion string :=
  match v with
  | JNull => Normal "null"
  | JBool true => Normal "true"
  | JBool false => Normal "false"
  | JNum n => Normal (Number_toString n)
  | JStr s => Normal s
  | JArr l =>
      texts ← (fix each (l : list (json number)) : Completion (list string) :=
                 match l with
                 | [] => Normal []
                 | e :: l' =>
                     t ← match e with JNull => Normal "" | _ => toString e end;
                     ts ← each l';
                     Normal (t :: ts)
                 end) l;
      Normal (String.concat "," texts)
  | JObj ps =>
      if existsb (fun p => String.eqb (fst p) "toString") ps
      then Throw TypeError
      else Normal "[object Object]"
  end.

(** One element of [join]: undefined and null give the empty text. *)
Definition joined (e : option (json number)) : Completion string :=
  match e with
  | None | Some JNull => Normal ""
  | Some v => toString v
  end.

Fixpoint mapJoined (cells : list (option (json number))) : Completion (list string) :=
  match cells with
  | [] => Normal []
  | e :: cells' =>
      t ← joined e;
      ts ← mapJoined cells';
      Normal (t :: ts)
  end.

Fixpoint mapIndex0 (items : list (json number)) : Completion (list (option (json number))) :=
  match items with
  | [] => Normal []
  | item :: items' =>
      x ← index0 item;
      xs ← mapIndex0 items';
      Normal (x :: xs)
  end.

(** [data[0].map(item => item[0]).join('')] (line 150): only an array has
    a [map] to call. *)
Definition translatedOf (data : json number) : Completion string :=
  d ← index0 data;
  match d with
  | Some (JArr items) =>
      cells ← mapIndex0 items;
      texts ← mapJoined cells;
      Normal (String.concat "" texts)
  | _ => Throw TypeError
  end.

(** How the call of lines 145-149 ends: [fetch] rejects, [response.json()]
    rejects, or the body parses to [data]. *)
Inductive Reply : Type :=
  | FetchRejects
  | JsonRejects
  | Body (data : json number).

(** The [try] block up to line 150. *)
Definition received (reply : Reply) : Completion string :=
  match reply with
  | FetchRejects => Throw TypeError
  | JsonRejects => Throw SyntaxError
  | Body data => translatedOf data
  end.

(** ** The component *)

Definition initialView : View :=
  mkView "en" "es" false "" "" "" false true "" [].

(** Lines 60-100, run in render [r]. *)
Definition newSpeechRecognition (r : View) : SpeechRecognition :=
  mkSpeechRecognition true true (orEnUS (voiceOf (inputLang r))) false r.

(** The effect of lines 57-104, created in render [r]. *)
Definition recognitionEffect (r : View) (a : App) : App :=
  if hasSpeechRecognition a
  then setRecognition (Some (newSpeechRecognition r)) a
  else setError "Speech recognition not supported in this browser. Please use Chrome or Edge." a.

(** Its cleanup (lines 105-109). *)
Definition recognitionCleanup (a : App) : App :=
  setRecognition (stop <$> recognitionRef a) a.

(** The effect of lines 113-123. *)
Definition loadEffect (a : App) : Completion App :=
  let saved := localStorage a !! SESSIONS_KEY in
  a1 ← match saved with
       | Some text =>
           if truthy text then
             match JSON_parse text with
             | Some l => Normal (setSessions l a)
             | None => Throw SyntaxError
             end
           else Normal a
       | None => Normal a
       end;
  let disclaimerShown := localStorage a1 !! DISCLAIMER_KEY in
  Normal (if truthyItem disclaimerShown then setShowDisclaimer false a1 else a1).

(** Loading the page on a host with the given support, voices and store:
    the first render, then its two effects. *)
Definition mount (sr : bool) (voices : list Voice) (store : gmap string string)
    : Completion App :=
  loadEffect
    (recognitionEffect initialView
       (mkApp initialView None (mkSpeechSynthesis voices []) store [] sr)).

(** Lines 164-177, of render [r]. *)
Definition saveSession (r : View) (original translated : string) (clock : Clock)
    (a : App) : App :=
  let session :=
    mkSession (Date_now clock) (toISOString clock) (inputLang r) (outputLang r)
      original translated in
  let newSessions := take 10 (session :: sessions r) in
  setItem SESSIONS_KEY (JSON_stringify newSessions) (setSessions newSessions a).

(** Lines 136-147 of render [r], up to the call of [fetch]. *)
Definition translateText (r : View) (text : string) (a : App) : App :=
  if truthy (Js.trim text)
  then setInFlight (inFlight a ++ [mkRequest text r])
         (setError "" (setIsTranslating true a))
  else a.

(** Lines 149-160: the rest of the call [q], once its response is there. *)
Definition settle (q : Request) (reply : Reply) (clock : Clock) (a : App) : App :=
  setIsTranslating false
    match received reply with
    | Normal translated =>
        saveSession (request_render q) (request_text q) translated clock
          (setTranslatedText translated a)
    | Throw _ => setError "Translation failed. Please try again." a
    end.

(** The loop of lines 66-76: the interim and the final text of an event. *)
Definition segments (event : ResultEvent) : string * string :=
  foldl (fun '(interim, final) res =>
           if isFinal res
           then (interim, final +:+ transcript res +:+ " ")
           else (interim +:+ transcript res, final))
        ("", "") (drop (resultIndex event) (results event)).

(** [onresult] (lines 65-84), of render [r]. *)
Definition onresult (r : View) (event : ResultEvent) (a : App) : App :=
  let '(interim, final) := segments event in
  let a1 :=
    if truthy final then
      let enhanced := enhanceMedicalTerms final in
      translateText r (originalText r +:+ enhanced)
        (setOriginalText (fun prev => prev +:+ enhanced) a)
    else a in
  setInterimText interim a1.

(** [onerror] (lines 86-90). *)
Definition onerror (err : string) (a : App) : App :=
  setIsListening false (setError ("Speech recognition error: " +:+ err) a).

(** [onend] (lines 92-100), of render [r]. *)
Definition onend (r : View) (a : App) : App :=
  if isListening r then
    match start <$> recognitionRef a with
    | Some (Normal rec) => setRecognition (Some rec) a
    | Some (Throw _) => setIsListening false a
    | None => a
    end
  else a.

(** [toggleListening] (lines 180-196), of render [r]. *)
Definition toggleListening (r : View) (a : App) : App :=
  match recognitionRef a with
  | None => setError "Speech recognition not available" a
  | Some rec =>
      if isListening r then
        setInterimText "" (setIsListening false (setRecognition (Some (stop rec)) a))
      else
        let rec := setLang (orEnUS (voiceOf (inputLang r))) rec in
        let a := setRecognition (Some rec) (setError "" a) in
        match start rec with
        | Normal rec => setIsListening true (setRecognition (Some rec) a)
        | Throw _ =>
            (* nothing catches it: the handler ends here, the host reports
               the exception, and the updates made so far stay *)
            a
        end
  end.

Definition cancel (s : SpeechSynthesis) : SpeechSynthesis :=
  mkSpeechSynthesis (getVoices s) [].

Definition speak (u : Utterance) (s : SpeechSynthesis) : SpeechSynthesis :=
  mkSpeechSynthesis (getVoices s) (speaking s ++ [u]).

(** The argument of [startsWith] in line 208:
    [langVoice?.split('-')[0]], undefined read as text. *)
Definition localePrefix (langVoice : option string) : string :=
  match langVoice with
  | Some v => Js.beforeHyphen v
  | None => "undefined"
  end.

(** [speakText] (lines 199-216). *)
Definition speakText (text lang : string) (a : App) : App :=
  if truthy text then
    let synth := cancel (synthRef a) in
    let voices := getVoices synth in
    let langVoice := voiceOf lang in
    let voice :=
      match find (fun v => Js.startsWith (voice_lang v) (localePrefix langVoice)) voices with
      | Some v => Some v
      | None => head voices
      end in
    let utterance :=
      mkUtterance text voice (orEnUS langVoice)
        (QArith_base.Qmake 9 10) (QArith_base.Qmake 1 1) in
    setSynth (speak utterance synth) a
  else a.

(** [clearSession] (lines 219-224). *)
Definition clearSession (a : App) : App :=
  setError "" (setInterimText "" (setTranslatedText "" (setOriginalText (fun _ => "") a))).

(** [clearHistory] (lines 227-230). *)
Definition clearHistory (a : App) : App :=
  removeItem SESSIONS_KEY (setSessions [] a).

(** [acceptDisclaimer] (lines 233-236). *)
Definition acceptDisclaimer (a : App) : App :=
  setItem DISCLAIMER_KEY "true" (setShowDisclaimer false a).

(** A change of the input language (line 306): a new render, in which the
    effect of lines 57-110 is cleaned up and run again. *)
Definition selectInputLang (c : string) (a : App) : App :=
  if String.eqb c (inputLang (view a)) then a
  else
    let a := setInputLang c a in
    recognitionEffect (view a) (recognitionCleanup a).

(** ** Events *)

Inductive Event : Type :=
  | Result (event : ResultEvent)
  | RecognitionError (err : string)
  | RecognitionEnd
  | Response (i : nat) (reply : Reply) (clock : Clock)
  | ClickToggle
  | SelectInput (c : string)
  | SelectOutput (c : string)
  | ClickClearSession
  | ClickClearHistory
  | ClickAccept
  | ClickSpeakOriginal
  | ClickSpeakTranslated
  | Reload.

(** A recognition event runs the handler the recognition object carries;
    a click runs the function of the current render; [Response i] completes
    the [i]-th call in flight.  An exception in a handler ends that handler
    and leaves the page running with the updates made so far, so such a
    step is [Normal]; a step is [Throw] only when a reload fails in the
    load effect. *)
Definition step (a : App) (e : Event) : Completion App :=
  match e with
  | Result event =>
      Normal (match recognitionRef a with
              | Some rec => onresult (handlers rec) event a
              | None => a
              end)
  | RecognitionError err =>
      Normal (match recognitionRef a with
              | Some _ => onerror err a
              | None => a
              end)
  | RecognitionEnd =>
      Normal (match recognitionRef a with
              | Some rec =>
                  (* the recognition has stopped when its end event fires *)
                  onend (handlers rec) (setRecognition (Some (stop rec)) a)
              | None => a
              end)
  | Response i reply clock =>
      Normal (match inFlight a !! i with
              | Some q => settle q reply clock (setInFlight (delete i (inFlight a)) a)
              | None => a
              end)
  | ClickToggle => Normal (toggleListening (view a) a)
  | SelectInput c => Normal (selectInputLang c a)
  | SelectOutput c => Normal (setOutputLang c a)
  | ClickClearSession => Normal (clearSession a)
  | ClickClearHistory => Normal (clearHistory a)
  | ClickAccept => Normal (acceptDisclaimer a)
  | ClickSpeakOriginal =>
      Normal (speakText (originalText (view a)) (inputLang (view a)) a)
  | ClickSpeakTranslated =>
      Normal (speakText (translatedText (view a)) (outputLang (view a)) a)
  | Reload => mount (hasSpeechRecognition a) (getVoices (synthRef a)) (localStorage a)
  end.

Fixpoint run (a : App) (es : list Event) : Completion App :=
  match es with
  | [] => Normal a
  | e :: es' => a' ← step a e; run a' es'
  end.

(** ** Invariants of the store *)

(** The stored history can be loaded: it is absent, empty, or parses. *)
Definition loadable (store : gmap string string) : Prop :=
  match store !! SESSIONS_KEY with
  | Some text => truthy text = true → is_Some (JSON_parse text)
  | None => True
  end.

Definition acknowledged (store : gmap string string) : Prop :=
  store !! DISCLAIMER_KEY = Some "true".

(** What [JSON.stringify] wrote, [JSON.parse] reads: the one law of the
    host that the component relies on. *)
Definition writesParse : Prop :=
  ∀ l : list Session, is_Some (JSON_parse (JSON_stringify l)).

(** ** Calls by the current render *)

(** The record that saveSession builds for the languages [il] and [ol]. *)
Definition sessionOf (il ol : string) (x : string * string * Clock) : Session :=
  let '(original, translated, clock) := x in
  mkSession (Date_now clock) (toISOString clock) il ol original translated.

(** Successive calls of saveSession, each made by the render of the state
    it acts on. *)
Definition saveEach (a : App) (l : list (string * string * Clock)) : App :=
  foldl (fun a '(original, translated, clock) =>
           saveSession (view a) original translated clock a) a l.

(** ** Two sessions of use *)

(** The [k]-th recognition event of a session in which the utterances of
    [said] are finalized one after the other: the results so far, of which
    the last is new. *)
Definition heard (said : list string) (k : nat) : Event :=
  Result (mkResultEvent (k - 1) (map (fun t => mkSpeechResult t true) (take k said))).

(** A response of the translation service that holds one sentence,
    arriving for the oldest call in flight. *)
Definition answered (translated source : string) (now : Z) : Event :=
  Response 0 (Body (JArr [JArr [JArr [JStr translated; JStr source]]]))
    (mkClock now "2025-01-01T00:00:00.000Z").

Definition utterances : list string :=
  ["bp"; "hr"; "temp"; "meds"; "rx"; "dx"; "tx"; "hx"; "sx"; "pain"; "rest"].

(** The disclaimer accepted, listening started, then eleven utterances,
    each translated before the next is spoken. *)
Definition elevenTranslations : list Event :=
  ClickAccept :: ClickToggle ::
  concat (map (fun k => [heard utterances k; answered "texto" "text" (Z.of_nat k)])
            (seq 1 11)).

(** Two finalized utterances in two events; the second event also carries
    an interim result. *)
Definition twoBatches : list Event := [
  ClickAccept;
  ClickToggle;
  Result (mkResultEvent 0 [mkSpeechResult "hello" true]);
  Result (mkResultEvent 1 [mkSpeechResult "hello" true;
                           mkSpeechResult "world" true;
                           mkSpeechResult "and" false])
].

End Component.

(** ** The load effect on any stored text

    [setSessions(JSON.parse(saved))] stores whatever value the text parses
    to.  Here the sessions state is a parsed value, and [parse] is
    [JSON.parse] on every text, [None] being the SyntaxError it throws. *)

Section AnyStoredText.
Context `{Host}.
Variable parse : string → option (json number).

(** The two cells the effect writes. *)
Record Loaded : Type := mkLoaded {
  loaded_sessions : json number;
  loaded_showDisclaimer : bool
}.

(** Their initial values (lines 49 and 51). *)
Definition initialLoaded : Loaded := mkLoaded (JArr []) true.

(** The effect of lines 113-123. *)
Definition loadEffectValue (store : gmap string string) (st : Loaded) : Completion Loaded :=
  let saved := store !! SESSIONS_KEY in
  st1 ← match saved with
        | Some text =>
            if truthy text then
              match parse text with
              | Some v => Normal (mkLoaded v (loaded_showDisclaimer st))
              | None => Throw SyntaxError
              end
            else Normal st
        | None => Normal st
        end;
  let disclaimerShown := store !! DISCLAIMER_KEY in
  Normal (if truthyItem disclaimerShown
          then mkLoaded (loaded_sessions st1) false
          else st1).

(** What [sessions.length] reads (line 434, the first use of the sessions
    in a render): the number of elements of an array, the number of code
    units of a string, the property of that name of an object, undefined
    on a boolean or a number; on null the read throws. *)
Inductive Length : Type :=
  | Count (n : nat)
  | Property (v : json number)
  | Undefined.

Definition sessionsLength (sessions : json number) : Completion Length :=
  match sessions with
  | JNull => Throw TypeError
  | JArr l => Normal (Count (length l))
  | JStr s => Normal (Count (String.length s))
  | JObj ps =>
      Normal (match find (fun p => String.eqb (fst p) "length") ps with
              | Some p => Property (snd p)
              | None => Undefined
              end)
  | JBool _ | JNum _ => Normal Undefined
  end.

End AnyStoredText.

(** A [JSON.parse] for closed examples that knows three texts. *)
Definition parseKeyword (text : string) : option (json Z) :=
  if String.eqb text "null" then Some JNull
  else if String.eqb text "true" then Some (JBool true)
  else if String.eqb text "[]" then Some (JArr [])
  else None.

(** ** A host for closed examples

    Its [JSON.stringify] writes a list of sessions as a bracket and the
    binary digits of the list's code, and its [JSON.parse] reads exactly
    these texts back; both are lawful for the one property the component
    relies on, that what was written parses. *)

Definition sessionFields (s : Session) : Z * string * string * string * string * string :=
  (id s, timestamp s, session_inputLang s, session_outputLang s, original s, translated s).

Definition sessionOfFields (t : Z * string * string * string * string * string) : Session :=
  let '(i, ts, il, ol, o, tr) := t in mkSession i ts il ol o tr.

Global Instance Session_eq_dec : EqDecision Session.
Proof. solve_decision. Defined.

Global Instance Session_countable : Countable Session.
Proof.
  apply (inj_countable' sessionFields sessionOfFields).
  intros []; reflexivity.
Defined.

Fixpoint digitsOf (p : positive) : string :=
  match p with
  | xH => "]"
  | xO p' => String "0" (digitsOf p')
  | xI p' => String "1" (digitsOf p')
  end.

Fixpoint ofDigits (s : string) : option positive :=
  match s with
  | String c s' =>
      if Ascii.eqb c "0" then xO <$> ofDigits s'
      else if Ascii.eqb c "1" then xI <$> ofDigits s'
      else if Ascii.eqb c "]" then (match s' with EmptyString => Some xH | _ => None end)
      else None
  | EmptyString => None
  end.

Definition sampleHost : Host := {|
  number := Z;
  Number_toString := pretty;
  JSON_parse := fun s =>
    match s with
    | String c s' => if Ascii.eqb c "[" then ofDigits s' ≫= decode else None
    | EmptyString => None
    end;
  JSON_stringify := fun l => String "[" (digitsOf (encode l))
|}.

(** ** Whole words, in the words of the specification

    The text is cut into its maximal runs of word characters and of other
    characters; a whole-word occurrence of a key is a run that spells the
    key in some letter case. *)

Fixpoint runs (s : list ascii) : list (list ascii) :=
  match s with
  | [] => []
  | c :: s' =>
      match runs s' with
      | (d :: r) :: rs =>
          if Bool.eqb (Js.isWordChar c) (Js.isWordChar d)
          then (c :: d :: r) :: rs
          else [c] :: (d :: r) :: rs
      | [] :: rs => [c] :: rs
      | [] => [[c]]
      end
  end.

Definition sameWord (w key : list ascii) : bool :=
  bool_decide (map Js.canonicalize w = map Js.canonicalize key).

Definition expandRun (key full w : list ascii) : list ascii :=
  if sameWord w key then full else w.

Definition expandUnits (key full s : list ascii) : list ascii :=
  concat (map (expandRun key full) (runs s)).

Definition expandWholeWords (abbr full : string) (s : string) : string :=
  Js.str (expandUnits (Js.units abbr) (Js.units full) (Js.units s)).

(** *** Lower case and replacement, stated apart from the code's primitives

    A capital letter among the code units below 256 is one of A-Z or of
    U+00C0-U+00DE other than the multiplication sign U+00D7; its small
    letter lies 32 units higher.  In a text in lower case a run of word
    characters spells a key of small letters when it is the key. *)






(** ** Notions used in the proofs about enhancement *)

(** The unit before the index behind [w], when [prev] is the one before [w]. *)
Fixpoint lastOr (prev : option ascii) (w : list ascii) : option ascii :=
  match w with
  | [] => prev
  | c :: w' => lastOr (Some c) w'
  end.

(** A run of class [b]: not empty, all of word characters ([b = true]) or
    all of other characters. *)
Definition isRun (b : bool) (w : list ascii) : Prop :=
  w ≠ [] ∧ Forall (λ c, Js.isWordChar c = b) w.

(** Runs of alternating classes, the first of class [b]. *)
Fixpoint alternating (b : bool) (rs : list (list ascii)) : Prop :=
  match rs with
  | [] => True
  | w :: rs' => isRun b w ∧ alternating (negb b) rs'
  end.

Definition headClass (b : bool) (s : list ascii) : Prop :=
  match s with
  | [] => True
  | c :: _ => Js.isWordChar c = b
  end.

(** The runs that take the place of the run [w]. *)
Definition expandRuns (key full w : list ascii) : list (list ascii) :=
  if sameWord w key then runs full else [w].

(** An expansion that starts and ends with a word. *)
Definition wordy (full : list ascii) : bool :=
  Js.isWordAt (head full) && Nat.odd (length (runs full)).

(** No run of [s] spells one of the keys [ks]. *)
Definition keyFree (ks : list (list ascii)) (s : list ascii) : Prop :=
  Forall (λ w, Forall (λ k, sameWord w k = false) ks) (runs s).

(** A key of letters, as [Js.wholeWord] expects it. *)
Definition plainKey (abbr : string) : bool :=
  negb (String.eqb abbr "") && forallb Js.isLetter (Js.units abbr).

Definition terms : list (list ascii * list ascii) :=
  map (fun '(abbr, full) => (Js.units abbr, Js.units full)) MEDICAL_TERMS.

Definition expandAll (ts : list (list ascii * list ascii)) (s : list ascii) : list ascii :=
  foldl (fun e '(key, full) => expandUnits key full e) s ts.

(** Enhancement on code units. *)
Definition enhanceUnits (l : list ascii) : list ascii :=
  expandAll terms (map Js.lowerUnit l).

(** What idempotence needs of an entry of the table, [K] being the keys. *)
Definition okTerm (K : list (list ascii)) (t : list ascii * list ascii) : Prop :=
  t.1 ≠ [] ∧ Forall (λ c, Js.isLetter c = true) t.1 ∧ wordy t.2 = true
  ∧ keyFree K t.2 ∧ Forall (λ c, Js.lowerUnit c = c) t.2.

Global Instance okTerm_dec K t : Decision (okTerm K t).
Proof. unfold okTerm, keyFree. apply _. Defined.

(** ** Further notions

    Closed forms and invariants for the properties that follow those of
    the specification. *)

(** The expansion of the first entry whose key the run [w] spells, else
    [w] itself. *)
Definition expandAny (ts : list (list ascii * list ascii)) (w : list ascii) : list ascii :=
  match find (fun t => sameWord w t.1) ts with
  | Some t => t.2
  | None => w
  end.

(** One pass over the runs of [s]. *)
Definition singlePass (ts : list (list ascii * list ascii)) (s : list ascii) : list ascii :=
  concat (map (expandAny ts) (runs s)).

(** The texts of a list, one after the other. *)
Definition joinAll (l : list string) : string := foldr String.append "" l.

(** The interim and the final text of the results [l], said without the
    loop of lines 69-76. *)
Definition interimOf (l : list SpeechResult) : string :=
  joinAll (map transcript (List.filter (fun res => negb (isFinal res)) l)).

Definition finalOf (l : list SpeechResult) : string :=
  joinAll (map (fun res => transcript res +:+ " ") (List.filter isFinal l)).

(** *** The request of line 146 *)

(** The characters [encodeURIComponent] keeps: [A-Za-z0-9] and [-_.!~*'()]. *)
Definition isUnreserved (c : ascii) : bool :=
  Js.unit_in 48 57 c || Js.unit_in 65 90 c || Js.unit_in 97 122 c
  || bool_decide (c ∈ ["-"; "_"; "."; "!"; "~"; "*"; "'"; "("; ")"]%char).

Definition hexDigit (n : N) : ascii :=
  if (n <? 10)%N then ascii_of_N (48 + n) else ascii_of_N (55 + n).

(** One byte as a percent escape, with upper-case digits. *)
Definition percent (b : N) : list ascii :=
  ["%"%char; hexDigit (b / 16); hexDigit (b mod 16)].

(** [encodeURIComponent] on one code unit below 256: itself when unreserved,
    else the escapes of its UTF-8 bytes (one byte below 128, two above). *)
Definition encodeUnit (c : ascii) : list ascii :=
  let n := N_of_ascii c in
  if isUnreserved c then [c]
  else if (n <? 128)%N then percent n
  else percent (192 + n / 64) ++ percent (128 + n mod 64).

Definition encodeURIComponent (s : string) : string :=
  Js.str (concat (map encodeUnit (Js.units s))).

(** The URL that [translateText] of render [r] fetches for [text]
    (line 146). *)
Definition translateUrl (r : View) (text : string) : string :=
  "https://translate.googleapis.com/translate_a/single?client=gtx&sl="
  +:+ inputLang r +:+ "&tl=" +:+ outputLang r +:+ "&dt=t&q="
  +:+ encodeURIComponent text.

Definition requestUrl (q : Request) : string :=
  translateUrl (request_render q) (request_text q).

(** Reading one encoded unit back, as a means of proof. *)
Definition hexValue (c : ascii) : option N :=
  let n := N_of_ascii c in
  if Js.unit_in 48 57 c then Some (n - 48)%N
  else if Js.unit_in 65 70 c then Some (n - 55)%N
  else None.

Definition escapedByte (l : list ascii) : option (N * list ascii) :=
  match l with
  | p :: h1 :: h2 :: rest =>
      if Ascii.eqb p "%" then
        a ← hexValue h1; b ← hexValue h2; Some ((16 * a + b)%N, rest)
      else None
  | _ => None
  end.

Definition decodeUnit (l : list ascii) : option (ascii * list ascii) :=
  match l with
  | [] => None
  | c :: rest =>
      if Ascii.eqb c "%" then
        '(b1, rest1) ← escapedByte l;
        if (b1 <? 128)%N then Some (ascii_of_N b1, rest1)
        else '(b2, rest2) ← escapedByte rest1;
             Some (ascii_of_N ((b1 - 192) * 64 + (b2 - 128)), rest2)
      else Some (c, rest)
  end.

(** *** Invariants of runs *)

(** A full history, the newest record first. *)
Definition tenSessions : list Session :=
  map (fun k => mkSession (Z.of_nat k) "t" "en" "es" "a" "b") (rev (seq 1 10)).

Section Notions.
Context `{Host}.

(** [JSON.parse] gives back the list that [JSON.stringify] wrote. *)
Definition readsBack : Prop :=
  ∀ l : list Session, JSON_parse (JSON_stringify l) = Some l.

(** The stored history is absent or the text of at most ten sessions. *)
Definition bounded (store : gmap string string) : Prop :=
  match store !! SESSIONS_KEY with
  | Some text => ∃ l, length l ≤ 10 ∧ text = JSON_stringify l
  | None => True
  end.

(** An event that is not a choice of the input language. *)
Definition keepsInputLang (e : Event) : bool :=
  match e with
  | SelectInput _ => false
  | _ => true
  end.

(** The recognition handlers and the calls in flight are those of the
    first render. *)
Definition firstRender (a : App) : Prop :=
  hasSpeechRecognition a = true
  ∧ (∃ rec, recognitionRef a = Some rec ∧ handlers rec = initialView)
  ∧ Forall (λ q, request_render q = initialView) (inFlight a).

(** Nothing is listening, nothing was heard and nothing translated. *)
Definition silent (a : App) : Prop :=
  hasSpeechRecognition a = false ∧ recognitionRef a = None
  ∧ isListening (view a) = false ∧ inFlight a = []
  ∧ originalText (view a) = "" ∧ translatedText (view a) = ""
  ∧ interimText (view a) = "".

(** The input language chosen, so that the handlers are those of the
    current render, then one utterance heard and translated. *)
Definition oneMoreTranslation : list Event := [
  ClickAccept;
  SelectInput "fr";
  ClickToggle;
  heard ["bp"] 1;
  answered "tension" "blood pressure " 11
].

(** A session: two utterances heard and sent, the output language changed
    to French, a third utterance heard. *)
Definition threeUtterances : list Event := [
  ClickAccept;
  ClickToggle;
  heard ["bp is high"; "take meds"; "rest"] 1;
  heard ["bp is high"; "take meds"; "rest"] 2;
  SelectOutput "fr";
  heard ["bp is high"; "take meds"; "rest"] 3
].

End Notions.

(** * Properties *)

Import Js.

(** ** Code units *)

Lemma canon_letter d : unit_in 65 90 (canonicalize d) = isLetter d.
Proof. destruct d as [[] [] [] [] [] [] [] []]; reflexivity. Qed.

Lemma letter_word d : isLetter d = true → isWordChar d = true.
Proof.
  unfold isLetter, isWordChar.
  destruct (unit_in 65 90 d), (unit_in 97 122 d), (unit_in 48 57 d); simpl; done.
Qed.

Lemma lowerUnit_idem c : lowerUnit (lowerUnit c) = lowerUnit c.
Proof. destruct c as [[] [] [] [] [] [] [] []]; reflexivity. Qed.

(** A unit that folds to the same unit as a letter is a word character. *)
Lemma canon_letter_word k d :
  isLetter k = true → canonicalize k = canonicalize d → isWordChar d = true.
Proof.
  intros Hk Heq. apply letter_word. rewrite <- canon_letter, <- Heq, canon_letter. done.
Qed.

Lemma units_str l : units (str l) = l.
Proof. apply String.list_ascii_of_string_of_list_ascii. Qed.

Lemma str_units s : str (units s) = s.
Proof. apply String.string_of_list_ascii_of_string. Qed.

(** ** Words that spell a key *)

Lemma sameWord_cons c w k key :
  sameWord (c :: w) (k :: key)
  = Ascii.eqb (canonicalize k) (canonicalize c) && sameWord w key.
Proof.
  unfold sameWord. simpl map.
  destruct (Ascii.eqb_spec (canonicalize k) (canonicalize c)) as [e|n]; simpl.
  - rewrite e. apply bool_decide_ext. split; intros E; [by simplify_eq | by f_equal].
  - apply bool_decide_eq_false_2. intros E. simplify_eq.
Qed.

Lemma sameWord_nil_l key : sameWord [] key = bool_decide (key = []).
Proof.
  unfold sameWord. apply bool_decide_ext.
  destruct key; simpl; split; intros; congruence.
Qed.

Lemma sameWord_nil_r w : sameWord w [] = bool_decide (w = []).
Proof.
  unfold sameWord. apply bool_decide_ext.
  destruct w; simpl; split; intros; congruence.
Qed.

Lemma sameWord_length w key : sameWord w key = true → length w = length key.
Proof.
  unfold sameWord. intros E%bool_decide_eq_true.
  apply (f_equal length) in E. by rewrite !length_map in E.
Qed.

Lemma sameWord_letters w key :
  Forall (λ c, isLetter c = true) key → sameWord w key = true →
  Forall (λ c, isWordChar c = true) w.
Proof.
  intros Hk. revert w. induction Hk as [|k key Hk _ IH]; intros [|c w].
  - constructor.
  - rewrite sameWord_nil_r. intros ?%bool_decide_eq_true. done.
  - constructor.
  - rewrite sameWord_cons. intros [E1 E2]%andb_true_iff.
    apply Ascii.eqb_eq in E1. constructor; eauto using canon_letter_word.
Qed.

Lemma lastOr_word prev w b :
  w ≠ [] → Forall (λ c, isWordChar c = b) w → isWordAt (lastOr prev w) = b.
Proof.
  intros Hne Hw. revert prev. induction Hw as [|c w Hc Hw IH]; [done|].
  intros prev. simpl. destruct w as [|d w]; [done|]. apply IH. done.
Qed.

(** ** The matcher on a key of letters *)

Section WholeWord.
Variables (key full : list ascii).
Hypothesis key_nonempty : key ≠ [].
Hypothesis key_letters : Forall (λ c, isLetter c = true) key.

(** Behind a matched letter: the rest of the key matches the rest of the
    word exactly when the word ends where the key ends. *)
Lemma lits_tail k w prev rest :
  Forall (λ c, isLetter c = true) k →
  Forall (λ c, isWordChar c = true) w →
  isWordAt (head rest) = false →
  isWordAt prev = true →
  matchHere (lits k) prev (w ++ rest)
  = if sameWord w k then Some (length k) else None.
Proof.
  intros Hk. revert w prev.
  induction Hk as [|c k Hc Hk IH]; intros w prev Hw Hrest Hprev.
  - rewrite sameWord_nil_r. simpl. rewrite Hprev.
    destruct w as [|d w]; simpl.
    + by rewrite Hrest.
    + inversion_clear Hw as [|?? Hd _]. by rewrite Hd.
  - destruct w as [|d w].
    + rewrite sameWord_nil_l. simpl.
      destruct rest as [|e rest]; [done|]. simpl in Hrest.
      destruct (Ascii.eqb_spec (canonicalize c) (canonicalize e)) as [E|]; [|done].
      apply canon_letter_word in E; [congruence|done].
    + rewrite sameWord_cons. inversion_clear Hw as [|?? Hd Hw']. simpl.
      destruct (Ascii.eqb (canonicalize c) (canonicalize d)); [|done]. simpl.
      fold (lits k). rewrite IH by done. by destruct (sameWord w k).
Qed.

(** No match starts at a unit that is not a word character, nor at the end. *)
Lemma wholeWord_nonword prev s :
  isWordAt (head s) = false → matchHere (wholeWordUnits key) prev s = None.
Proof.
  intros Hs. unfold wholeWordUnits, lits. simpl. rewrite Hs.
  destruct (isWordAt prev); simpl; [|done].
  destruct key as [|c k]; [done|]. simpl.
  destruct s as [|e s]; [done|]. simpl in Hs.
  destruct (Ascii.eqb_spec (canonicalize c) (canonicalize e)) as [E|]; [|done].
  inversion_clear key_letters as [|?? Hc _].
  apply canon_letter_word in E; [congruence|done].
Qed.

(** No match starts inside a word. *)
Lemma wholeWord_inside prev s :
  isWordAt prev = true → isWordAt (head s) = true →
  matchHere (wholeWordUnits key) prev s = None.
Proof. intros Hp Hs. unfold wholeWordUnits. simpl. by rewrite Hp, Hs. Qed.

(** At the start of a word there is a match exactly when the word spells
    the key. *)
Lemma wholeWord_word prev w rest :
  isWordAt prev = false → w ≠ [] →
  Forall (λ c, isWordChar c = true) w →
  isWordAt (head rest) = false →
  matchHere (wholeWordUnits key) prev (w ++ rest)
  = if sameWord w key then Some (length key) else None.
Proof.
  intros Hp Hne Hw Hrest. unfold wholeWordUnits.
  destruct w as [|d w]; [done|]. inversion Hw as [|?? Hd Hw']; subst.
  cbn [matchHere app head isWordAt]. rewrite Hp, Hd. cbn [xorb].
  destruct key as [|c k] eqn:Ek; [done|].
  inversion_clear key_letters as [|?? Hc Hk].
  rewrite sameWord_cons. unfold lits. cbn [map app matchHere].
  destruct (Ascii.eqb (canonicalize c) (canonicalize d)); [|done]. cbn [andb].
  fold (lits k). rewrite lits_tail by done. by destruct (sameWord w k).
Qed.

(** ** The scan over one run *)

Lemma replaceFrom_end prev : replaceFrom (wholeWordUnits key) full prev 0 [] = [].
Proof. cbn [replaceFrom]. by rewrite wholeWord_nonword. Qed.

Lemma replaceFrom_skip u prev rest :
  replaceFrom (wholeWordUnits key) full prev (length u) (u ++ rest)
  = replaceFrom (wholeWordUnits key) full (lastOr prev u) 0 rest.
Proof.
  revert prev. induction u as [|c u IH]; intros prev; [done|].
  cbn [length app replaceFrom lastOr]. apply IH.
Qed.

Lemma replaceFrom_nonword u prev rest :
  Forall (λ c, isWordChar c = false) u →
  replaceFrom (wholeWordUnits key) full prev 0 (u ++ rest)
  = u ++ replaceFrom (wholeWordUnits key) full (lastOr prev u) 0 rest.
Proof.
  intros Hu. revert prev. induction Hu as [|c u Hc Hu IH]; intros prev; [done|].
  cbn [app replaceFrom lastOr]. rewrite wholeWord_nonword by done. by rewrite IH.
Qed.

Lemma replaceFrom_inside w prev rest :
  isWordAt prev = true →
  Forall (λ c, isWordChar c = true) w →
  replaceFrom (wholeWordUnits key) full prev 0 (w ++ rest)
  = w ++ replaceFrom (wholeWordUnits key) full (lastOr prev w) 0 rest.
Proof.
  intros Hp Hw. revert prev Hp.
  induction Hw as [|c w Hc Hw IH]; intros prev Hp; [done|].
  cbn [app replaceFrom lastOr]. rewrite wholeWord_inside by done. by rewrite IH.
Qed.

Lemma replaceFrom_word w prev rest :
  isWordAt prev = false → w ≠ [] →
  Forall (λ c, isWordChar c = true) w →
  isWordAt (head rest) = false →
  replaceFrom (wholeWordUnits key) full prev 0 (w ++ rest)
  = expandRun key full w ++ replaceFrom (wholeWordUnits key) full (lastOr prev w) 0 rest.
Proof.
  intros Hp Hne Hw Hrest.
  pose proof (wholeWord_word prev w rest Hp Hne Hw Hrest) as Hm.
  unfold expandRun. destruct w as [|c w]; [done|].
  cbn [app replaceFrom lastOr] in *. rewrite Hm.
  destruct (sameWord (c :: w) key) eqn:Es.
  - apply sameWord_length in Es. rewrite <- Es. cbn [length].
    by rewrite replaceFrom_skip.
  - inversion_clear Hw as [|?? Hc Hw'].
    by rewrite replaceFrom_inside.
Qed.

Lemma sameWord_run w : isRun false w → sameWord w key = false.
Proof.
  intros [Hne Hw]. destruct (sameWord w key) eqn:E; [|done].
  apply sameWord_letters in E; [|done].
  destruct w as [|c w]; [done|]. inversion Hw; inversion E; congruence.
Qed.

Lemma sameWord_word b w : isRun b w → sameWord w key = true → b = true.
Proof. destruct b; [done|]. intros ?%sameWord_run. congruence. Qed.

End WholeWord.

(** ** Runs *)

Lemma runs_cons_head c s : ∃ r rs, runs (c :: s) = (c :: r) :: rs.
Proof.
  simpl. destruct (runs s) as [|[|d r] rs]; [by eexists _, _..|].
  destruct (Bool.eqb _ _); by eexists _, _.
Qed.

Lemma runs_alternating c s : alternating (isWordChar c) (runs (c :: s)).
Proof.
  revert c. induction s as [|d s IH]; intros c.
  - simpl. repeat split; [done|by constructor].
  - specialize (IH d). cbn [runs] in *.
    destruct (runs_cons_head d s) as (r & rs & E). cbn [runs] in E. rewrite E in *.
    destruct IH as [[_ Hr] Hrs]. inversion Hr as [|?? Hd Hr']; subst.
    destruct (Bool.eqb_spec (isWordChar c) (isWordChar d)) as [Ecd|Ncd].
    + cbn [alternating]. rewrite Ecd. repeat split; [done|by constructor|done].
    + assert (negb (isWordChar c) = isWordChar d) as E'
        by (destruct (isWordChar c), (isWordChar d); done).
      cbn [alternating]. rewrite E'.
      repeat split; [done|by repeat constructor|done|by constructor|done].
Qed.

Lemma concat_runs s : concat (runs s) = s.
Proof.
  induction s as [|c s IH]; [done|]. cbn [runs].
  destruct (runs s) as [|[|d r] rs]; simpl in *; [by subst| by subst |].
  destruct (Bool.eqb _ _); simpl; by rewrite <- IH.
Qed.

Lemma runs_app_run b w rest :
  isRun b w → headClass (negb b) rest → runs (w ++ rest) = w :: runs rest.
Proof.
  intros [Hne Hw] Hrest. induction Hw as [|c w Hc Hw IH]; [done|].
  destruct w as [|d w].
  - cbn [app runs]. destruct rest as [|e rest]; [done|].
    destruct (runs_cons_head e rest) as (r & rs & ->).
    simpl in Hrest. rewrite Hc, Hrest. by destruct b.
  - rewrite <- app_comm_cons. cbn [runs]. rewrite IH by done.
    inversion_clear Hw as [|?? Hd _]. rewrite Hc, Hd. by destruct b.
Qed.

Lemma alternating_headClass b rs : alternating b rs → headClass b (concat rs).
Proof.
  destruct rs as [|w rs]; [done|]. intros [[Hne Hw] _].
  destruct w as [|c w]; [done|]. simpl. by inversion Hw.
Qed.

Lemma runs_concat b rs : alternating b rs → runs (concat rs) = rs.
Proof.
  revert b. induction rs as [|w rs IH]; intros b; [done|]. intros [Hw Hrs].
  cbn [concat]. rewrite (runs_app_run b) by eauto using alternating_headClass.
  by rewrite (IH (negb b)).
Qed.

Lemma headClass_false s : headClass false s → isWordAt (head s) = false.
Proof. by destruct s. Qed.

Lemma alternating_app b l1 l2 :
  alternating b l1 →
  alternating (if Nat.odd (length l1) then negb b else b) l2 →
  alternating b (l1 ++ l2).
Proof.
  revert b. induction l1 as [|w l1 IH]; intros b; [done|].
  intros [Hw H1] H2. split; [done|]. apply IH; [done|].
  cbn [length] in H2. rewrite Nat.odd_succ, <- Nat.negb_odd in H2.
  destruct (Nat.odd (length l1)); simpl in *; [by rewrite negb_involutive|done].
Qed.

(** ** The scan is the replacement of whole words *)

Section WholeWordRuns.
Variables (key full : list ascii).
Hypothesis key_nonempty : key ≠ [].
Hypothesis key_letters : Forall (λ c, isLetter c = true) key.

Lemma replaceFrom_runs b rs prev :
  alternating b rs → (b = true → isWordAt prev = false) →
  replaceFrom (wholeWordUnits key) full prev 0 (concat rs)
  = concat (map (expandRun key full) rs).
Proof.
  revert b prev. induction rs as [|w rs IH]; intros b prev Hrs Hprev.
  - by apply replaceFrom_end.
  - destruct Hrs as [Hw Hrs]. cbn [concat map].
    pose proof (alternating_headClass _ _ Hrs) as Hhead.
    destruct Hw as [Hne Hw]. destruct b; cbn [negb] in *.
    + rewrite replaceFrom_word by auto using headClass_false.
      f_equal. apply (IH false); [done|done].
    + rewrite replaceFrom_nonword by done.
      unfold expandRun at 1. rewrite sameWord_run by done.
      f_equal. apply (IH true); [done|]. intros _. by apply lastOr_word.
Qed.

Lemma replaceFrom_whole_words s :
  replaceFrom (wholeWordUnits key) full None 0 s = expandUnits key full s.
Proof.
  unfold expandUnits. destruct s as [|c s]; [by apply replaceFrom_end|].
  rewrite <- (concat_runs (c :: s)) at 1.
  apply (replaceFrom_runs (isWordChar c)); [apply runs_alternating|done].
Qed.

(** *** The runs of the result, for an expansion that starts and ends
    with a word *)

Hypothesis full_wordy : wordy full = true.

Lemma alternating_full : alternating true (runs full).
Proof.
  apply andb_true_iff in full_wordy as [Hh _].
  destruct full as [|c f]; [done|]. simpl in Hh. rewrite <- Hh.
  apply runs_alternating.
Qed.

Lemma alternating_expandRuns b rs :
  alternating b rs → alternating b (concat (map (expandRuns key full) rs)).
Proof.
  revert b. induction rs as [|w rs IH]; intros b; [done|]. intros [Hw Hrs].
  cbn [map concat]. unfold expandRuns at 1.
  destruct (sameWord w key) eqn:E.
  - assert (b = true) as -> by eauto using sameWord_word.
    apply alternating_app; [apply alternating_full|].
    apply andb_true_iff in full_wordy as [_ ->]. by apply IH.
  - split; [done|]. by apply IH.
Qed.

Lemma concat_expandRuns rs :
  concat (concat (map (expandRuns key full) rs)) = concat (map (expandRun key full) rs).
Proof.
  induction rs as [|w rs IH]; [done|]. cbn [map concat].
  rewrite concat_app, IH. f_equal. unfold expandRuns, expandRun.
  destruct (sameWord w key); [apply concat_runs|simpl; apply app_nil_r].
Qed.

Lemma runs_expandUnits s :
  runs (expandUnits key full s) = concat (map (expandRuns key full) (runs s)).
Proof.
  unfold expandUnits. rewrite <- concat_expandRuns. destruct s as [|c s]; [done|].
  apply (runs_concat (isWordChar c)), alternating_expandRuns, runs_alternating.
Qed.

End WholeWordRuns.

Lemma replace_whole_words abbr full s :
  plainKey abbr = true →
  Js.replace (wholeWord abbr) full s = expandWholeWords abbr full s.
Proof.
  intros [Hne Hl]%andb_true_iff. unfold Js.replace, expandWholeWords, wholeWord. f_equal.
  apply replaceFrom_whole_words.
  - by destruct abbr.
  - apply Forall_forall. intros c Hc. rewrite forallb_forall in Hl. apply Hl.
    by apply list_elem_of_In.
Qed.

(** The table has the shape the embedding of [replace] assumes: keys of
    letters, and no [$] in an expansion. *)
Lemma MEDICAL_TERMS_plain :
  forallb (fun '(abbr, full) =>
             plainKey abbr && forallb (fun c => negb (Ascii.eqb c "$")) (units full))
          MEDICAL_TERMS = true.
Proof. reflexivity. Qed.

Lemma enhance_whole_words (text : string) :
  enhanceMedicalTerms text
  = foldl (fun t '(abbr, full) => expandWholeWords abbr full t)
      (toLowerCase text) MEDICAL_TERMS.
Proof.
  unfold enhanceMedicalTerms, MEDICAL_TERMS. cbn [foldl].
  by rewrite !replace_whole_words by reflexivity.
Qed.

Example enhance_inside_longer_words :
  enhanceMedicalTerms "BP and Temp; bpm, hbp meds_x Rx."
  = "blood pressure and temperature; bpm, hbp meds_x prescription.".
Proof. reflexivity. Qed.

(** ** Idempotence of enhancement *)

Lemma expandUnits_keyFree ks key full s :
  key ≠ [] → Forall (λ c, isLetter c = true) key → wordy full = true →
  keyFree (key :: ks) full → keyFree ks s →
  keyFree (key :: ks) (expandUnits key full s).
Proof.
  intros Hne Hl Hw Hfull Hs. unfold keyFree in *.
  rewrite runs_expandUnits by done.
  induction Hs as [|w rs Hwk Hrs IH]; [constructor|].
  cbn [map concat]. apply Forall_app. split; [|done].
  unfold expandRuns. destruct (sameWord w key) eqn:E; [done|].
  by repeat constructor.
Qed.

Lemma expandUnits_id ks key full s :
  keyFree ks s → key ∈ ks → expandUnits key full s = s.
Proof.
  intros Hs Hk. unfold expandUnits. rewrite <- (concat_runs s) at 2. f_equal.
  unfold keyFree in Hs. induction Hs as [|w rs Hw Hrs IH]; [done|].
  cbn [map]. rewrite IH. f_equal. unfold expandRun.
  rewrite Forall_forall in Hw. by rewrite Hw.
Qed.

Lemma expandUnits_Forall (P : ascii → Prop) key full s :
  Forall P full → Forall P s → Forall P (expandUnits key full s).
Proof.
  intros Hf Hs. unfold expandUnits. rewrite <- (concat_runs s) in Hs.
  induction (runs s) as [|w rs IH]; [constructor|].
  cbn [concat map] in *. apply Forall_app in Hs as [Hw Hrs].
  apply Forall_app. split; [|by apply IH].
  unfold expandRun. by destruct (sameWord w key).
Qed.

Lemma enhance_units text : enhanceMedicalTerms text = str (enhanceUnits (units text)).
Proof.
  rewrite enhance_whole_words.
  unfold enhanceUnits, expandAll, terms, MEDICAL_TERMS, expandWholeWords, toLowerCase.
  cbn [foldl map]. by rewrite !units_str.
Qed.

(** The shipped table: keys of letters, expansions in lower case that start
    and end with a word and hold no key as a word. *)
Lemma terms_ok : Forall (okTerm (map fst terms)) terms.
Proof. apply (bool_decide_unpack _). vm_compute. exact I. Qed.

Lemma keyFree_subseteq K ks s : ks ⊆ K → keyFree K s → keyFree ks s.
Proof.
  intros Hsub Hs. unfold keyFree in *. eapply Forall_impl; [exact Hs|].
  intros w Hw. rewrite Forall_forall in Hw |- *. auto.
Qed.

Lemma expandAll_keyFree K ts ks s :
  Forall (okTerm K) ts → map fst ts ⊆ K → ks ⊆ K →
  keyFree ks s → keyFree (rev (map fst ts) ++ ks) (expandAll ts s).
Proof.
  intros Hts. revert ks s.
  induction Hts as [|[key full] ts Ht Hts IH]; intros ks s HK Hks Hs; [done|].
  destruct Ht as (Hne & Hl & Hw & Hfree & _). cbn [fst snd] in *.
  cbn [map rev expandAll foldl]. rewrite <- app_assoc. cbn [app].
  assert (key :: ks ⊆ K) as Hsub.
  { intros k [->|Hk]%elem_of_cons; [apply HK; left|by apply Hks]. }
  apply IH; [intros k Hk; apply HK; by right|done|].
  apply expandUnits_keyFree; eauto using keyFree_subseteq.
Qed.

Lemma expandAll_id ks ts s :
  keyFree ks s → map fst ts ⊆ ks → expandAll ts s = s.
Proof.
  intros Hs. induction ts as [|[key full] ts IH]; intros Hsub; [done|].
  cbn [expandAll foldl]. rewrite (expandUnits_id ks) by (done || apply Hsub; left).
  apply IH. intros k Hk. apply Hsub. by right.
Qed.

Lemma expandAll_Forall (P : ascii → Prop) ts s :
  Forall (λ t, Forall P t.2) ts → Forall P s → Forall P (expandAll ts s).
Proof.
  intros Hts. revert s.
  induction Hts as [|[key full] ts Ht Hts IH]; intros s Hs; [done|].
  cbn [expandAll foldl]. apply IH. by apply expandUnits_Forall.
Qed.

Lemma map_lowerUnit_fixed l : Forall (λ c, lowerUnit c = c) l → map lowerUnit l = l.
Proof. induction 1; simpl; congruence. Qed.

Lemma enhanceUnits_idem l : enhanceUnits (enhanceUnits l) = enhanceUnits l.
Proof.
  unfold enhanceUnits at 1. rewrite map_lowerUnit_fixed.
  - apply (expandAll_id (rev (map fst terms) ++ [])).
    + apply (expandAll_keyFree (map fst terms));
        [apply terms_ok|done|by intros ? ?%elem_of_nil|].
      apply Forall_forall. intros w _. constructor.
    + intros k Hk. rewrite app_nil_r.
      apply list_elem_of_In, in_rev. rewrite rev_involutive. by apply list_elem_of_In.
  - apply expandAll_Forall.
    + eapply Forall_impl; [apply terms_ok|]. by intros t (_ & _ & _ & _ & ?).
    + induction l as [|c l IH]; constructor; [apply lowerUnit_idem|done].
Qed.

(** C10: enhancement applied to its own output returns that output. *)
Theorem C10_enhance_idempotent (text : string) :
  enhanceMedicalTerms (enhanceMedicalTerms text) = enhanceMedicalTerms text.
Proof. by rewrite !enhance_units, units_str, enhanceUnits_idem. Qed.

(** ** Lower case first, then the runs that are a key *)











(** ** The component *)

(** C5: clearSession leaves the original, the interim and the translated
    text empty, and changes neither the sessions of the state nor the
    store. *)
Theorem C5_clearSession_keeps_history (a : App) :
  originalText (view (clearSession a)) = ""
  ∧ interimText (view (clearSession a)) = ""
  ∧ translatedText (view (clearSession a)) = ""
  ∧ sessions (view (clearSession a)) = sessions (view a)
  ∧ localStorage (clearSession a) = localStorage a.
Proof.
  unfold clearSession, setError, setInterimText, setTranslatedText, setOriginalText, setView.
  cbn [view localStorage originalText interimText translatedText sessions].
  by repeat split.
Qed.

Lemma find_first {A} (p : A → bool) (l : list A) :
  match find p l with
  | Some v => ∃ pre post, l = pre ++ v :: post
                ∧ Forall (λ w, p w = false) pre ∧ p v = true
  | None => Forall (λ w, p w = false) l
  end.
Proof.
  induction l as [|x l IH]; [constructor|]. cbn [find].
  destruct (p x) eqn:E.
  - by exists [], l.
  - destruct (find p l) as [v|].
    + destruct IH as (pre & post & -> & Hpre & Hv).
      exists (x :: pre), post. by repeat constructor.
    + by constructor.
Qed.

(** For a language of the catalog the prefix that voices are compared with
    is the text before the hyphen of its locale tag. *)
Lemma localePrefix_catalog :
  Forall (λ l, localePrefix (voiceOf (code l)) = beforeHyphen (voice l)) LANGUAGES.
Proof. repeat constructor. Qed.

(** For a language of the catalog, [voiceOf] gives its locale tag, the tag
    is not empty, and the code is the text before the tag's hyphen. *)
Lemma catalog_locale (l : Language) :
  l ∈ LANGUAGES →
  voiceOf (code l) = Some (voice l) ∧ orEnUS (Some (voice l)) = voice l
  ∧ localePrefix (Some (voice l)) = code l
  ∧ ∃ region, voice l = code l +:+ String "-" region.
Proof.
  revert l. apply Forall_forall. unfold LANGUAGES.
  repeat (constructor; [by repeat split; [..|eexists]|]). constructor.
Qed.

(** What a call on a text that is not empty leaves in the speech queue. *)
Lemma speakText_utterance (lang : string) (a : App) (c : ascii) (t : string) :
  let voices := getVoices (synthRef a) in
  let matches v := startsWith (voice_lang v) (localePrefix (voiceOf lang)) in
  ∃ u, speaking (synthRef (speakText (String c t) lang a)) = [u]
    ∧ utterance_text u = String c t
    ∧ utterance_lang u = orEnUS (voiceOf lang)
    ∧ rate u = QArith_base.Qmake 9 10
    ∧ pitch u = QArith_base.Qmake 1 1
    ∧ ((∃ pre v post, voices = pre ++ v :: post
          ∧ Forall (λ w, matches w = false) pre
          ∧ matches v = true
          ∧ utterance_voice u = Some v)
       ∨ (Forall (λ w, matches w = false) voices
          ∧ utterance_voice u = head voices)).
Proof.
  intros voices matches.
  unfold speakText. cbn [truthy String.eqb negb].
  eexists. split; [reflexivity|].
  cbn [utterance_text utterance_lang rate pitch utterance_voice].
  do 4 (split; [done|]).
  cbn [cancel getVoices]. fold voices. fold matches.
  pose proof (find_first matches voices) as Hf.
  destruct (find matches voices) as [v|].
  - left. destruct Hf as (pre & post & ? & ? & ?). by exists pre, v, post.
  - by right.
Qed.

(** C8: speakText on the empty text changes nothing.  On any other text
    and a language of the catalog, whose locale tag is the language code, a
    hyphen and a region, it leaves exactly one utterance in the speech
    queue (what was there is cancelled), with the given text, the locale
    tag of the language, rate 0.9 and pitch 1, and with the first voice of
    the host whose language starts with the language code, or, when no
    voice does, the first voice of the host (none when the host has no
    voice).  For a code outside the catalog the language of the utterance
    is en-US and the voices are compared with the text "undefined".  With
    the voices en-US, es-ES, es-MX a Spanish text is spoken by the es-ES
    voice and a French text by the en-US voice. *)
Theorem C8_speakText_selects_voice (a : App) :
  (∀ lang, speakText "" lang a = a)
  ∧ Forall (λ l,
      (∃ region, voice l = code l +:+ String "-" region)
      ∧ ∀ (c : ascii) (t : string),
          let voices := getVoices (synthRef a) in
          let matches v := startsWith (voice_lang v) (code l) in
          ∃ u, speaking (synthRef (speakText (String c t) (code l) a)) = [u]
            ∧ utterance_text u = String c t
            ∧ utterance_lang u = voice l
            ∧ rate u = QArith_base.Qmake 9 10
            ∧ pitch u = QArith_base.Qmake 1 1
            ∧ ((∃ pre v post, voices = pre ++ v :: post
                  ∧ Forall (λ w, matches w = false) pre
                  ∧ matches v = true
                  ∧ utterance_voice u = Some v)
               ∨ (Forall (λ w, matches w = false) voices
                  ∧ utterance_voice u = head voices))) LANGUAGES
  ∧ (∀ (lang : string) (c : ascii) (t : string),
       voiceOf lang = None →
       let voices := getVoices (synthRef a) in
       let matches v := startsWith (voice_lang v) "undefined" in
       ∃ u, speaking (synthRef (speakText (String c t) lang a)) = [u]
         ∧ utterance_text u = String c t
         ∧ utterance_lang u = "en-US"
         ∧ ((∃ v, find matches voices = Some v ∧ utterance_voice u = Some v)
            ∨ (find matches voices = None ∧ utterance_voice u = head voices)))
  ∧ (let alex := mkVoice "Alex" "en-US" in
     let monica := mkVoice "Monica" "es-ES" in
     let paulina := mkVoice "Paulina" "es-MX" in
     let before := mkUtterance "old" None "en-US" (QArith_base.Qmake 9 10) (QArith_base.Qmake 1 1) in
     let host voices := mkApp (view a) (recognitionRef a) (mkSpeechSynthesis voices [before])
                          (localStorage a) (inFlight a) (hasSpeechRecognition a) in
     speaking (synthRef (speakText "hola" "es" (host [alex; monica; paulina])))
     = [mkUtterance "hola" (Some monica) "es-ES" (QArith_base.Qmake 9 10) (QArith_base.Qmake 1 1)]
     ∧ speaking (synthRef (speakText "hola" "es" (host [alex; paulina; monica])))
       = [mkUtterance "hola" (Some paulina) "es-ES" (QArith_base.Qmake 9 10) (QArith_base.Qmake 1 1)]
     ∧ speaking (synthRef (speakText "bonjour" "fr" (host [alex; monica; paulina])))
       = [mkUtterance "bonjour" (Some alex) "fr-FR" (QArith_base.Qmake 9 10) (QArith_base.Qmake 1 1)]
     ∧ speaking (synthRef (speakText "bonjour" "fr" (host [])))
       = [mkUtterance "bonjour" None "fr-FR" (QArith_base.Qmake 9 10) (QArith_base.Qmake 1 1)]).
Proof.
  split; [done|]. split; [|split].
  - apply Forall_forall. intros l Hl.
    destruct (catalog_locale l Hl) as (Hv & Hor & Hp & Hr). split; [done|].
    intros c t voices matches.
    destruct (speakText_utterance (code l) a c t) as (u & Hu).
    rewrite Hv, Hor, Hp in Hu. by exists u.
  - intros lang c t Hv voices matches.
    unfold speakText. cbn [truthy String.eqb negb]. rewrite Hv.
    eexists. split; [reflexivity|].
    cbn [utterance_text utterance_lang utterance_voice orEnUS localePrefix cancel getVoices].
    do 2 (split; [done|]). fold voices. fold matches.
    destruct (find matches voices) as [v|]; [left; by exists v|by right].
  - repeat split; reflexivity.
Qed.

Section ComponentProperties.
Context `{Host}.

Lemma recognitionEffect_storage r a :
  localStorage (recognitionEffect r a) = localStorage a.
Proof. unfold recognitionEffect. by destruct (hasSpeechRecognition a). Qed.

Lemma recognitionEffect_sessions r a :
  sessions (view (recognitionEffect r a)) = sessions (view a).
Proof. unfold recognitionEffect. by destruct (hasSpeechRecognition a). Qed.

Lemma recognitionEffect_showDisclaimer r a :
  showDisclaimer (view (recognitionEffect r a)) = showDisclaimer (view a).
Proof. unfold recognitionEffect. by destruct (hasSpeechRecognition a). Qed.

(** C6: clearHistory empties the sessions of the state and removes the
    history from the store, so that a reload starts with no session. *)
Theorem C6_clearHistory_empties_both (a : App) :
  sessions (view (clearHistory a)) = []
  ∧ localStorage (clearHistory a) !! SESSIONS_KEY = None
  ∧ ∃ a', step (clearHistory a) Reload = Normal a' ∧ sessions (view a') = [].
Proof.
  split; [done|]. split; [apply lookup_delete_eq|].
  cbn [step]. unfold mount, loadEffect.
  rewrite recognitionEffect_storage. cbn [localStorage clearHistory removeItem setStorage].
  rewrite lookup_delete_eq. cbn.
  rewrite recognitionEffect_storage. cbn [localStorage].
  eexists. split; [done|].
  destruct (truthyItem _); cbn; by rewrite recognitionEffect_sessions.
Qed.

(** *** What one call of saveSession and of onresult does *)

(** saveSession puts the new record before the sessions of its render,
    keeps ten, and stores what it keeps. *)
Lemma saveSession_prepends r original translated clock a :
  let session :=
    mkSession (Date_now clock) (toISOString clock) (inputLang r) (outputLang r)
      original translated in
  let a' := saveSession r original translated clock a in
  sessions (view a') = take 10 (session :: sessions r)
  ∧ length (sessions (view a')) ≤ 10
  ∧ localStorage a' !! SESSIONS_KEY = Some (JSON_stringify (sessions (view a'))).
Proof.
  intros session a'. subst a'. unfold saveSession. fold session.
  cbn [view sessions setItem setStorage setSessions setView localStorage].
  split; [done|]. split; [|apply lookup_insert_eq].
  rewrite length_take. lia.
Qed.

(** Called by the current render each time, saveSession keeps the ten
    latest records, the newest first. *)
Lemma saveEach_sessions a l :
  length (sessions (view a)) ≤ 10 →
  sessions (view (saveEach a l))
  = take 10 (rev (map (sessionOf (inputLang (view a)) (outputLang (view a))) l)
             ++ sessions (view a)).
Proof.
  revert a. induction l as [|[[o t] c] l IH]; intros a Hlen.
  - cbn. by rewrite take_ge.
  - cbn [saveEach foldl]. fold (saveEach (saveSession (view a) o t c a) l).
    rewrite IH.
    + cbn [saveSession view sessions setItem setStorage setSessions setView
           inputLang outputLang map rev sessionOf].
      rewrite <- app_assoc. cbn [app]. rewrite !take_app.
      f_equal. rewrite take_take. f_equal. lia.
    + cbn [saveSession view sessions setItem setStorage setSessions setView].
      rewrite length_take. lia.
Qed.

(** onresult with a final text: the state gains the enhanced text behind
    its original text, the interim text is replaced, nothing is stored,
    and the text handed to translateText starts with the original text of
    the render of the handler. *)
Lemma onresult_final r event a interim final :
  segments event = (interim, final) → truthy final = true →
  let a' := onresult r event a in
  let enhanced := enhanceMedicalTerms final in
  originalText (view a') = originalText (view a) +:+ enhanced
  ∧ interimText (view a') = interim
  ∧ sessions (view a') = sessions (view a)
  ∧ localStorage a' = localStorage a
  ∧ (truthy (trim (originalText r +:+ enhanced)) = true →
     inFlight a' = inFlight a ++ [mkRequest (originalText r +:+ enhanced) r]).
Proof.
  intros Hseg Hfinal a' enhanced. subst a'. unfold onresult.
  rewrite Hseg, Hfinal. fold enhanced. unfold translateText.
  destruct (truthy (trim _)); by repeat split.
Qed.

(** When the handler is that of the current render, the text handed to
    translateText is the accumulated original text with the new segment. *)
Lemma onresult_current_render event a interim final :
  segments event = (interim, final) → truthy final = true →
  let a' := onresult (view a) event a in
  truthy (trim (originalText (view a'))) = true →
  inFlight a' = inFlight a ++ [mkRequest (originalText (view a')) (view a)].
Proof.
  intros Hseg Hfinal a'.
  destruct (onresult_final (view a) event a interim final Hseg Hfinal)
    as (Ho & _ & _ & _ & Hq).
  fold a' in Ho, Hq. rewrite Ho. exact Hq.
Qed.

(** C3: a call of translateText on a text that is not blank waits for its
    response without touching the translated text; when the call fails
    (fetch rejects, the body cannot be read, or the response has not the
    shape that is decoded), then, whatever the state is by then, the
    translated text, the sessions and the store stay as they are and the
    error message is the non-empty "Translation failed. Please try
    again.". *)
Theorem C3_failed_translation_keeps_text
    (r : View) (text : string) (reply : Reply) (e : Error) (clock : Clock) (a : App) :
  trim text ≠ "" →
  received reply = Throw e →
  let q := mkRequest text r in
  inFlight (translateText r text a) = inFlight a ++ [q]
  ∧ translatedText (view (translateText r text a)) = translatedText (view a)
  ∧ ∀ a' : App,
      translatedText (view (settle q reply clock a')) = translatedText (view a')
      ∧ sessions (view (settle q reply clock a')) = sessions (view a')
      ∧ localStorage (settle q reply clock a') = localStorage a'
      ∧ error (view (settle q reply clock a')) = "Translation failed. Please try again."
      ∧ truthy (error (view (settle q reply clock a'))) = true.
Proof.
  intros Hblank Hfail q. unfold translateText.
  assert (truthy (trim text) = true) as ->.
  { unfold truthy. destruct (String.eqb_spec (trim text) ""); done. }
  split; [done|]. split; [done|].
  intros a'. unfold settle. rewrite Hfail. by repeat split.
Qed.

(** A response of a shape that cannot be decoded is a failed call. *)
Example received_null : received (Body JNull) = Throw TypeError.
Proof. reflexivity. Qed.

Example received_no_sentences : received (Body (JArr [])) = Throw TypeError.
Proof. reflexivity. Qed.

Example received_sentence :
  received (Body (JArr [JArr [JArr [JStr "hola"; JStr "hello"];
                              JArr [JStr " mundo"; JStr " world"]]]))
  = Normal "hola mundo".
Proof. reflexivity. Qed.

(** The load on the typed state is the load on values, for a [JSON.parse]
    that returns nothing but lists of session records: [embed] is the
    parsed value of such a list. *)
Lemma loadEffect_loadEffectValue
    (parse : string → option (json number)) (embed : list Session → json number)
    (a : App) :
  (∀ text, parse text = embed <$> JSON_parse text) →
  loadEffectValue parse (localStorage a)
    (mkLoaded (embed (sessions (view a))) (showDisclaimer (view a)))
  = a' ← loadEffect a;
    Normal (mkLoaded (embed (sessions (view a'))) (showDisclaimer (view a'))).
Proof.
  intros Hp. unfold loadEffectValue, loadEffect.
  destruct (localStorage a !! SESSIONS_KEY) as [text|]; [destruct (truthy text)|].
  - rewrite Hp. destruct (JSON_parse text) as [l|]; [|done]. cbn.
    by destruct (truthyItem _).
  - cbn. by destruct (truthyItem _).
  - cbn. by destruct (truthyItem _).
Qed.

(** C9 (amended): at startup the sessions become the value that JSON.parse
    returns for the stored text when that text is present and not empty,
    whatever value it is; they stay the empty list when the key is absent
    or holds the empty text; a stored text that is not empty and is not
    valid JSON ends the load with the SyntaxError of JSON.parse, which
    nothing catches, before the disclaimer flag is read.  When the load
    succeeds the disclaimer is shown unless its flag is stored and not
    empty. *)
Theorem C9_load_stored_value
    (parse : string → option (json number)) (store : gmap string string) :
  let shown := match store !! DISCLAIMER_KEY with
               | Some (String _ _) => false
               | Some EmptyString | None => true
               end in
  match store !! SESSIONS_KEY with
  | None => loadEffectValue parse store initialLoaded = Normal (mkLoaded (JArr []) shown)
  | Some text =>
      if String.eqb text "" then
        loadEffectValue parse store initialLoaded = Normal (mkLoaded (JArr []) shown)
      else
        match parse text with
        | Some v => loadEffectValue parse store initialLoaded = Normal (mkLoaded v shown)
        | None => loadEffectValue parse store initialLoaded = Throw SyntaxError
        end
  end.
Proof.
  intros shown. subst shown. unfold loadEffectValue, initialLoaded, truthy.
  destruct (store !! SESSIONS_KEY) as [text|];
    [destruct (String.eqb text ""); [|destruct (parse text)]|];
    cbn; try done; by destruct (store !! DISCLAIMER_KEY) as [[|? ?]|].
Qed.

(** *** The store along a run *)

Lemma mount_loadable sr voices store :
  loadable store →
  ∃ a, mount sr voices store = Normal a
     ∧ localStorage a = store
     ∧ showDisclaimer (view a) = negb (truthyItem (store !! DISCLAIMER_KEY)).
Proof.
  unfold loadable, mount, loadEffect. rewrite recognitionEffect_storage. cbn [localStorage].
  intros Hl.
  assert (∀ a0 : App, localStorage a0 = store → showDisclaimer (view a0) = true →
    ∃ a, Normal (if truthyItem (localStorage a0 !! DISCLAIMER_KEY)
                 then setShowDisclaimer false a0 else a0) = Normal a
       ∧ localStorage a = store
       ∧ showDisclaimer (view a) = negb (truthyItem (store !! DISCLAIMER_KEY))) as Hfin.
  { intros a0 Hs Hd. eexists. split; [done|]. rewrite Hs.
    by destruct (truthyItem _). }
  destruct (store !! SESSIONS_KEY) as [text|]; [destruct (truthy text) eqn:Et|].
  - destruct (Hl eq_refl) as [l ->]. cbn [mbind Completion_bind]. apply Hfin.
    + exact (recognitionEffect_storage _ _).
    + exact (recognitionEffect_showDisclaimer _ _).
  - cbn [mbind Completion_bind].
    apply Hfin; [apply recognitionEffect_storage|by rewrite recognitionEffect_showDisclaimer].
  - cbn [mbind Completion_bind].
    apply Hfin; [apply recognitionEffect_storage|by rewrite recognitionEffect_showDisclaimer].
Qed.

Lemma mount_Normal_loadable sr voices store a :
  mount sr voices store = Normal a → loadable store ∧ localStorage a = store.
Proof.
  intros Hm. assert (loadable store) as Hl.
  { revert Hm. unfold loadable, mount, loadEffect.
    rewrite recognitionEffect_storage. cbn [localStorage].
    destruct (store !! SESSIONS_KEY) as [text|]; [|done].
    intros Hm Ht. rewrite Ht in Hm. destruct (JSON_parse text); [by eexists|done]. }
  split; [done|]. destruct (mount_loadable sr voices store Hl) as (a' & Ha' & Hs & _).
  congruence.
Qed.

(** An event other than a reload completes, and the only writes to the
    store are those of saveSession, clearHistory and acceptDisclaimer. *)
Lemma step_storage a e :
  e ≠ Reload →
  ∃ a', step a e = Normal a'
    ∧ (localStorage a' = localStorage a
       ∨ (∃ l, localStorage a' = <[SESSIONS_KEY := JSON_stringify l]> (localStorage a))
       ∨ localStorage a' = delete SESSIONS_KEY (localStorage a)
       ∨ localStorage a' = <[DISCLAIMER_KEY := "true"]> (localStorage a)).
Proof.
  intros He. destruct e; try done; cbn [step]; eexists; (split; [reflexivity|]).
  - destruct (recognitionRef a) as [rec|]; [|by left].
    unfold onresult. destruct (segments event) as [interim final].
    destruct (truthy final); [|by left].
    unfold translateText. destruct (truthy _); by left.
  - destruct (recognitionRef a); by left.
  - destruct (recognitionRef a) as [rec|]; [|by left].
    unfold onend. destruct (isListening _); [|by left].
    cbn. destruct (start (stop rec)); by left.
  - destruct (inFlight a !! i) as [q|]; [|by left].
    unfold settle. destruct (received reply); [|by left].
    right; left. by eexists.
  - unfold toggleListening. destruct (recognitionRef a) as [rec|]; [|by left].
    destruct (isListening _); [by left|]. destruct (start _); by left.
  - unfold selectInputLang. destruct (String.eqb _ _); [by left|].
    rewrite recognitionEffect_storage. by left.
  - by left.
  - by left.
  - by do 2 right; left.
  - by do 3 right.
  - unfold speakText. destruct (truthy _); by left.
  - unfold speakText. destruct (truthy _); by left.
Qed.

Lemma step_invariant a e :
  writesParse → loadable (localStorage a) →
  ∃ a', step a e = Normal a'
    ∧ loadable (localStorage a')
    ∧ (acknowledged (localStorage a) ∨ e = ClickAccept → acknowledged (localStorage a'))
    ∧ (e = Reload →
       showDisclaimer (view a') = negb (truthyItem (localStorage a !! DISCLAIMER_KEY))).
Proof.
  intros Hw Hl.
  assert (e = Reload ∨ e ≠ Reload) as [->|He] by (destruct e; (by left) || (by right)).
  - cbn [step]. destruct (mount_loadable (hasSpeechRecognition a)
      (getVoices (synthRef a)) (localStorage a) Hl) as (a' & -> & Hs & Hd).
    exists a'. rewrite Hs. split; [done|]. split; [done|]. split; [|done].
    by intros [?|?].
  - destruct (step_storage a e He) as (a' & Hstep & Hs). exists a'.
    split; [done|]. unfold loadable, acknowledged in *.
    assert (SESSIONS_KEY ≠ DISCLAIMER_KEY) as Hne by done.
    assert (e = ClickAccept → localStorage a' !! DISCLAIMER_KEY = Some "true") as Hacc.
    { intros ->. cbn in Hstep. injection Hstep as <-. apply lookup_insert_eq. }
    split; [|split; [intros [Hk|?]; [|by auto]|done]];
      destruct Hs as [E|[[l E]|[E|E]]]; rewrite E.
    + done.
    + rewrite lookup_insert_eq. intros _. apply Hw.
    + by rewrite lookup_delete_eq.
    + by rewrite lookup_insert_ne.
    + done.
    + by rewrite lookup_insert_ne.
    + by rewrite lookup_delete_ne.
    + apply lookup_insert_eq.
Qed.

Lemma run_app a es1 es2 :
  run a (es1 ++ es2) = a' ← run a es1; run a' es2.
Proof.
  revert a. induction es1 as [|e es1 IH]; intros a; [done|].
  cbn [app run]. destruct (step a e) as [a1|]; [|done]. cbn. apply IH.
Qed.

Lemma run_invariant a es :
  writesParse → loadable (localStorage a) →
  ∃ a', run a es = Normal a'
    ∧ loadable (localStorage a')
    ∧ (acknowledged (localStorage a) → acknowledged (localStorage a')).
Proof.
  intros Hw. revert a. induction es as [|e es IH]; intros a Hl.
  - by exists a.
  - destruct (step_invariant a e Hw Hl) as (a1 & Hs & Hl1 & Ha1 & _).
    destruct (IH a1 Hl1) as (a' & Hr & Hl' & Ha').
    exists a'. cbn [run]. rewrite Hs. cbn [mbind Completion_bind].
    split; [done|]. split; [done|]. auto.
Qed.

(** C7: in every run of the application from a load that succeeded (on a
    host whose JSON.parse reads what its JSON.stringify wrote), whatever
    happens before and after the disclaimer is accepted: the later events
    complete, the store keeps the truthy flag "true", and a reload then
    ends with the disclaimer not shown. *)
Theorem C7_disclaimer_stays_accepted
    (sr : bool) (voices : list Voice) (store : gmap string string)
    (a : App) (before after : list Event) :
  writesParse →
  mount sr voices store = Normal a →
  ∃ a', run a (before ++ ClickAccept :: after ++ [Reload]) = Normal a'
      ∧ localStorage a' !! DISCLAIMER_KEY = Some "true"
      ∧ truthy "true" = true
      ∧ showDisclaimer (view a') = false.
Proof.
  intros Hw [Hl Hs]%mount_Normal_loadable. rewrite <- Hs in Hl.
  destruct (run_invariant a before Hw Hl) as (a1 & Hr1 & Hl1 & _).
  destruct (step_invariant a1 ClickAccept Hw Hl1) as (a2 & Hs2 & Hl2 & Ha2 & _).
  destruct (run_invariant a2 after Hw Hl2) as (a3 & Hr3 & Hl3 & Ha3).
  destruct (step_invariant a3 Reload Hw Hl3) as (a4 & Hs4 & Hl4 & Ha4 & Hd4).
  exists a4. rewrite run_app, Hr1. cbn [mbind Completion_bind run]. rewrite Hs2.
  cbn [mbind Completion_bind]. rewrite run_app, Hr3. cbn [mbind Completion_bind run].
  rewrite Hs4. cbn [mbind Completion_bind].
  assert (acknowledged (localStorage a3)) as Hack by auto.
  split; [done|]. split; [by apply Ha4; left|]. split; [done|].
  rewrite Hd4 by done. unfold acknowledged in Hack. by rewrite Hack.
Qed.

(** *** The handlers of the render of the mount *)

(** C2 (the code on eleven translations): on a page loaded with an empty
    store, after the disclaimer is accepted, listening is started and
    eleven utterances are each recognized and translated in turn, the
    sessions of the state and the stored history hold one record, the
    eleventh: every call of saveSession came from the handlers of the
    first render, whose sessions are empty. *)
Theorem C2_eleven_translations_keep_one_session :
  let last :=
    mkSession 11 "2025-01-01T00:00:00.000Z" "en" "es" "rest " "texto" in
  ∃ a0 a,
    mount true [] ∅ = Normal a0
    ∧ run a0 elevenTranslations = Normal a
    ∧ sessions (view a) = [last]
    ∧ localStorage a !! SESSIONS_KEY = Some (JSON_stringify [last]).
Proof.
  intros last. eexists _, _. split; [reflexivity|].
  split; [vm_compute; reflexivity|]. split; reflexivity.
Qed.

(** C4 (the code on a second batch): after two utterances finalized in
    two events, the original text holds both and the interim text is that
    of the second event, nothing is stored, and the call of translateText
    made for the second event was given the second utterance alone: the
    handler read the original text of the first render, which is empty. *)
Theorem C4_second_batch_translated_alone :
  ∃ a0 a,
    mount true [] ∅ = Normal a0
    ∧ run a0 twoBatches = Normal a
    ∧ originalText (view a) = "hello world "
    ∧ interimText (view a) = "and"
    ∧ request_text <$> inFlight a = ["hello "; "world "]
    ∧ localStorage a !! SESSIONS_KEY = None.
Proof.
  eexists _, _. split; [reflexivity|].
  split; [vm_compute; reflexivity|]. by repeat split.
Qed.

End ComponentProperties.

(** ** Closed instances on the sample host *)

Lemma ofDigits_digitsOf p : ofDigits (digitsOf p) = Some p.
Proof. induction p as [p IH|p IH|]; cbn; by rewrite ?IH. Qed.

Lemma sampleHost_writesParse : @writesParse sampleHost.
Proof.
  intros l. cbn. rewrite ofDigits_digitsOf. cbn. rewrite decode_encode. by eexists.
Qed.

(** A rejected fetch after "hola" was displayed: the text stays. *)
Lemma C3_witness :
  trim "bp is high" ≠ ""
  ∧ @received sampleHost FetchRejects = Throw TypeError
  ∧ ∀ a' : App,
      translatedText (view (@settle sampleHost (mkRequest "bp is high" initialView)
                              FetchRejects (mkClock 0 "") a'))
      = translatedText (view a')
      ∧ error (view (@settle sampleHost (mkRequest "bp is high" initialView)
                       FetchRejects (mkClock 0 "") a'))
        = "Translation failed. Please try again.".
Proof.
  assert (trim "bp is high" ≠ "") as Hblank by (vm_compute; discriminate).
  split; [exact Hblank|]. split; [reflexivity|]. intros a'.
  destruct (@C3_failed_translation_keeps_text sampleHost initialView "bp is high"
              FetchRejects TypeError (mkClock 0 "")
              (mkApp initialView None (mkSpeechSynthesis [] []) ∅ [] true)
              Hblank eq_refl) as (_ & _ & Hsettle).
  destruct (Hsettle a') as (Ht & _ & _ & He & _). by split.
Defined.

(** The claim of the specification fails on a store whose history is the
    empty text: it is present and does not parse, and the load succeeds
    with no session. *)
Lemma C9_empty_text_not_parsed :
  ({[ SESSIONS_KEY := "" ]} : gmap string string) !! SESSIONS_KEY = Some ""
  ∧ @JSON_parse sampleHost "" = None
  ∧ ∃ a, @mount sampleHost true [] {[ SESSIONS_KEY := "" ]} = Normal a
       ∧ sessions (view a) = [].
Proof.
  split; [apply lookup_singleton_eq|]. split; [reflexivity|].
  eexists. split; [vm_compute; reflexivity|reflexivity].
Qed.

(** A stored text that is valid JSON and not a list is taken as it is:
    with null stored the load succeeds, and the read of [sessions.length]
    in the render that follows throws a TypeError. *)
Example load_stored_null :
  @loadEffectValue sampleHost parseKeyword {[ SESSIONS_KEY := "null" ]} initialLoaded
  = Normal (mkLoaded JNull true)
  ∧ @sessionsLength sampleHost JNull = Throw TypeError
  ∧ @loadEffectValue sampleHost parseKeyword
      {[ SESSIONS_KEY := "true"; DISCLAIMER_KEY := "true" ]} initialLoaded
    = Normal (mkLoaded (JBool true) false)
  ∧ @sessionsLength sampleHost (JBool true) = Normal Undefined
  ∧ @loadEffectValue sampleHost parseKeyword
      {[ SESSIONS_KEY := "[1,"; DISCLAIMER_KEY := "true" ]} initialLoaded
    = Throw SyntaxError
  ∧ @loadEffectValue sampleHost parseKeyword {[ SESSIONS_KEY := EmptyString ]} initialLoaded
    = Normal (mkLoaded (JArr []) true).
Proof. repeat split; reflexivity. Qed.

Lemma C7_witness :
  @writesParse sampleHost
  ∧ ∃ a, @mount sampleHost true [] ∅ = Normal a
     ∧ ∃ a', @run sampleHost a
               ([ClickToggle] ++ ClickAccept :: [ClickClearHistory] ++ [Reload])
             = Normal a'
          ∧ localStorage a' !! DISCLAIMER_KEY = Some "true"
          ∧ truthy "true" = true
          ∧ showDisclaimer (view a') = false.
Proof.
  split; [exact sampleHost_writesParse|].
  eexists. split; [reflexivity|].
  apply (@C7_disclaimer_stays_accepted sampleHost true [] ∅ _
           [ClickToggle] [ClickClearHistory]).
  - exact sampleHost_writesParse.
  - reflexivity.
Defined.

(** * Further properties *)

(** ** Enhancement as one pass *)

Lemma expandAny_free K ts r :
  map fst ts ⊆ K → Forall (λ k, sameWord r k = false) K → expandAny ts r = r.
Proof.
  intros Hsub Hr. unfold expandAny.
  assert (find (fun t => sameWord r t.1) ts = None) as ->; [|done].
  induction ts as [|[k f] ts IH]; [done|]. cbn [find fst].
  rewrite Forall_forall in Hr. rewrite (Hr k) by (apply Hsub; left).
  apply IH. intros x Hx. apply Hsub. by right.
Qed.

Lemma singlePass_keyFree K ts s :
  map fst ts ⊆ K → keyFree K s → singlePass ts s = s.
Proof.
  intros Hsub Hs. unfold singlePass. rewrite <- (concat_runs s) at 2. f_equal.
  unfold keyFree in Hs. induction Hs as [|w rs Hw Hrs IH]; [done|].
  cbn [map]. rewrite IH. f_equal. by apply (expandAny_free K).
Qed.

Lemma expandAll_singlePass K ts s :
  Forall (okTerm K) ts → map fst ts ⊆ K → expandAll ts s = singlePass ts s.
Proof.
  intros Hts. revert s. induction Hts as [|[k f] ts Ht Hts IH]; intros s HK.
  - unfold singlePass. cbn. rewrite <- (concat_runs s) at 1. f_equal.
    induction (runs s) as [|w rs IHr]; [done|]. cbn. by rewrite <- IHr.
  - destruct Ht as (Hne & Hl & Hw & Hfree & _). cbn [fst snd] in *.
    assert (map fst ts ⊆ K) as HK' by (intros x Hx; apply HK; by right).
    cbn [expandAll foldl]. fold (expandAll ts (expandUnits k f s)).
    rewrite IH by done. unfold singlePass. rewrite runs_expandUnits by done.
    induction (runs s) as [|w rs IHr]; [done|].
    cbn [map concat]. rewrite map_app, concat_app, IHr. f_equal.
    unfold expandRuns, expandAny at 2. cbn [find fst snd].
    destruct (sameWord w k).
    + fold (singlePass ts f). by apply (singlePass_keyFree K).
    + cbn. by rewrite app_nil_r.
Qed.

(** X1: enhancement is one pass over the lower-cased text: every maximal run
    of word characters that spells a key is replaced by the expansion of
    that key, and everything else is kept; the words of an expansion are
    never expanded again. *)
Theorem enhance_single_pass (text : string) :
  enhanceMedicalTerms text = str (singlePass terms (units (toLowerCase text))).
Proof.
  rewrite enhance_units. f_equal. unfold enhanceUnits, toLowerCase. rewrite units_str.
  apply (expandAll_singlePass (map fst terms)); [apply terms_ok|done].
Qed.

Lemma enhanceUnits_lower l : Forall (λ c, lowerUnit c = c) (enhanceUnits l).
Proof.
  unfold enhanceUnits. apply expandAll_Forall.
  - eapply Forall_impl; [apply terms_ok|]. by intros t (_ & _ & _ & _ & ?).
  - induction l as [|c l IH]; constructor; [apply lowerUnit_idem|done].
Qed.

(** X2: the enhanced text is in lower case: lower-casing it changes
    nothing. *)
Theorem enhance_lower_case (text : string) :
  toLowerCase (enhanceMedicalTerms text) = enhanceMedicalTerms text.
Proof.
  rewrite enhance_units. unfold toLowerCase. rewrite units_str.
  by rewrite map_lowerUnit_fixed by apply enhanceUnits_lower.
Qed.

Lemma keyFree_nil s : keyFree [] s.
Proof. apply Forall_forall. intros w _. constructor. Qed.

Lemma enhanceUnits_keyFree l : keyFree (map fst terms) (enhanceUnits l).
Proof.
  apply (keyFree_subseteq (rev (map fst terms) ++ [])).
  - intros k Hk. rewrite app_nil_r.
    apply list_elem_of_In, in_rev. rewrite rev_involutive. by apply list_elem_of_In.
  - apply (expandAll_keyFree (map fst terms));
      [apply terms_ok|done|by intros ? ?%elem_of_nil|apply keyFree_nil].
Qed.

(** X3: in the enhanced text no maximal run of word characters spells a
    key of the table, in any letter case. *)
Theorem enhance_leaves_no_key (text : string) :
  keyFree (map fst terms) (units (enhanceMedicalTerms text)).
Proof. rewrite enhance_units, units_str. apply enhanceUnits_keyFree. Qed.

(** X4: on a text of which no word spells a key, enhancement is
    lower-casing. *)
Theorem enhance_without_keys (text : string) :
  keyFree (map fst terms) (units (toLowerCase text)) →
  enhanceMedicalTerms text = toLowerCase text.
Proof.
  intros Hfree. rewrite enhance_units. unfold enhanceUnits.
  unfold toLowerCase in *. rewrite units_str in Hfree.
  by rewrite (expandAll_id (map fst terms)).
Qed.

Lemma enhance_without_keys_witness :
  enhanceMedicalTerms "Hello, bpm of World 42" = "hello, bpm of world 42".
Proof.
  apply (enhance_without_keys "Hello, bpm of World 42").
  apply (bool_decide_unpack _). vm_compute. exact I.
Defined.

Lemma lowerUnit_word c : isWordChar (lowerUnit c) = isWordChar c.
Proof. destruct c as [[] [] [] [] [] [] [] []]; reflexivity. Qed.

Lemma units_app s1 s2 : units (s1 +:+ s2) = units s1 ++ units s2.
Proof.
  unfold units. induction s1 as [|c s1 IH]; [done|].
  change (String c s1 +:+ s2) with (String c (s1 +:+ s2)).
  cbn [String.list_ascii_of_string app]. by rewrite IH.
Qed.

Lemma str_app l1 l2 : str (l1 ++ l2) = str l1 +:+ str l2.
Proof.
  unfold str. induction l1 as [|c l1 IH]; [done|].
  cbn [app String.string_of_list_ascii]. by rewrite IH.
Qed.

Lemma lastOr_app prev w x : lastOr prev (w ++ x) = lastOr (lastOr prev w) x.
Proof. revert prev. induction w as [|c w IH]; intros prev; [done|]. apply IH. Qed.

(** ** Enhancement around a separator *)

Section Separator.
Variables (key full : list ascii).
Hypothesis key_nonempty : key ≠ [].
Hypothesis key_letters : Forall (λ c, isLetter c = true) key.

Lemma matchHere_prev p1 p2 s :
  isWordAt p1 = isWordAt p2 →
  matchHere (wholeWordUnits key) p1 s = matchHere (wholeWordUnits key) p2 s.
Proof.
  intros E. unfold wholeWordUnits, lits. destruct key as [|k ks]; [done|].
  cbn [matchHere map app]. rewrite E. by destruct s.
Qed.

Lemma replaceFrom_prev p1 p2 s :
  isWordAt p1 = isWordAt p2 →
  replaceFrom (wholeWordUnits key) full p1 0 s
  = replaceFrom (wholeWordUnits key) full p2 0 s.
Proof.
  intros E. destruct s as [|c s]; cbn [replaceFrom]; by rewrite (matchHere_prev p1 p2).
Qed.

Lemma head_app_nonword (rs : list (list ascii)) tail :
  alternating false rs → isWordAt (head tail) = false →
  isWordAt (head (concat rs ++ tail)) = false.
Proof.
  intros Hrs Ht. destruct rs as [|w rs]; [done|].
  destruct Hrs as [[Hne Hw] _]. destruct w as [|c w]; [done|].
  cbn. by inversion Hw.
Qed.

Lemma replaceFrom_runs_tail b rs prev tail :
  alternating b rs → (b = true → isWordAt prev = false) →
  isWordAt (head tail) = false →
  replaceFrom (wholeWordUnits key) full prev 0 (concat rs ++ tail)
  = concat (map (expandRun key full) rs)
    ++ replaceFrom (wholeWordUnits key) full (lastOr prev (concat rs)) 0 tail.
Proof.
  revert b prev. induction rs as [|w rs IH]; intros b prev Hrs Hprev Htail; [done|].
  destruct Hrs as [Hw Hrs]. cbn [concat map].
  rewrite <- !app_assoc, lastOr_app.
  destruct Hw as [Hne Hw]. destruct b; cbn [negb] in *.
  - rewrite (replaceFrom_word key full) by auto using head_app_nonword.
    f_equal. by apply (IH false).
  - rewrite (replaceFrom_nonword key full) by done.
    unfold expandRun at 1. rewrite (sameWord_run key) by done.
    f_equal. apply (IH true); [done| |done]. intros _. by apply lastOr_word.
Qed.

Lemma expandUnits_separator s1 c s2 :
  isWordChar c = false →
  expandUnits key full (s1 ++ c :: s2)
  = expandUnits key full s1 ++ c :: expandUnits key full s2.
Proof.
  intros Hc. rewrite <- !(replaceFrom_whole_words key full) by done.
  assert (∀ prev, replaceFrom (wholeWordUnits key) full prev 0 (c :: s2)
                  = c :: replaceFrom (wholeWordUnits key) full None 0 s2) as Hsep.
  { intros prev. change (c :: s2) with ([c] ++ s2) at 1.
    rewrite (replaceFrom_nonword key full key_nonempty key_letters [c] prev s2)
      by by constructor.
    cbn [app lastOr]. f_equal. apply replaceFrom_prev. cbn. by rewrite Hc. }
  destruct s1 as [|c1 s1].
  - cbn [app]. rewrite Hsep. by rewrite (replaceFrom_end key full).
  - rewrite <- (concat_runs (c1 :: s1)) at 1.
    rewrite (replaceFrom_runs_tail (isWordChar c1));
      [|apply runs_alternating|done|cbn; by rewrite Hc].
    rewrite Hsep. f_equal. symmetry. apply replaceFrom_whole_words; done.
Qed.

End Separator.

Lemma expandAll_separator K ts s1 c s2 :
  Forall (okTerm K) ts → isWordChar c = false →
  expandAll ts (s1 ++ c :: s2) = expandAll ts s1 ++ c :: expandAll ts s2.
Proof.
  intros Hts Hc. revert s1 s2.
  induction Hts as [|[k f] ts Ht Hts IH]; intros s1 s2; [done|].
  destruct Ht as (Hne & Hl & _). cbn [fst] in *.
  cbn [expandAll foldl]. fold (expandAll ts).
  rewrite expandUnits_separator by done. apply IH.
Qed.

(** X5: on texts of code units below 256, enhancement works on each side
    of a character that is not a word character: the text [s1 c s2] is
    enhanced to the enhanced [s1], the lower-cased [c] and the enhanced
    [s2].  So the final transcripts that onresult joins with spaces are
    enhanced one by one.  (Above 255 there are two characters that are not
    word characters and whose lower case holds an ASCII letter, U+0130 and
    U+212A; the equation is not stated for them.) *)
Theorem enhance_separator (s1 s2 : string) (c : ascii) :
  isWordChar c = false →
  enhanceMedicalTerms (s1 +:+ String c s2)
  = enhanceMedicalTerms s1 +:+ String (lowerUnit c) (enhanceMedicalTerms s2).
Proof.
  intros Hc. rewrite !enhance_units, units_app. cbn [units String.list_ascii_of_string].
  fold (units s2). unfold enhanceUnits. rewrite map_app. cbn [map].
  rewrite (expandAll_separator (map fst terms)); [|apply terms_ok|by rewrite lowerUnit_word].
  by rewrite str_app.
Qed.

Lemma enhance_separator_witness :
  enhanceMedicalTerms ("check bp" +:+ String " " "and hr")
  = enhanceMedicalTerms "check bp" +:+ String " " (enhanceMedicalTerms "and hr").
Proof. apply (enhance_separator "check bp" "and hr" " "). reflexivity. Defined.

(** ** The loop of onresult, blank texts, decoding *)

Lemma string_app_assoc (a b c : string) : (a +:+ b) +:+ c = a +:+ (b +:+ c).
Proof.
  induction a as [|x a IH]; [done|].
  change ((String x a +:+ b) +:+ c) with (String x ((a +:+ b) +:+ c)).
  change (String x a +:+ (b +:+ c)) with (String x (a +:+ (b +:+ c))).
  by rewrite IH.
Qed.

Lemma string_app_nil_r (a : string) : a +:+ "" = a.
Proof.
  induction a as [|x a IH]; [done|].
  change (String x a +:+ "") with (String x (a +:+ "")). by rewrite IH.
Qed.

Lemma segments_fold (l : list SpeechResult) (i f : string) :
  foldl (fun '(interim, final) res =>
           if isFinal res
           then (interim, final +:+ transcript res +:+ " ")
           else (interim +:+ transcript res, final))
        (i, f) l
  = (i +:+ interimOf l, f +:+ finalOf l).
Proof.
  revert i f. induction l as [|res l IH]; intros i f.
  - cbn. by rewrite !string_app_nil_r.
  - cbn [foldl]. unfold interimOf, finalOf. cbn [List.filter].
    destruct (isFinal res); cbn [negb map joinAll foldr]; rewrite IH;
      unfold interimOf, finalOf, joinAll; by rewrite ?string_app_assoc.
Qed.

Lemma segments_interim_final (event : ResultEvent) :
  segments event
  = (interimOf (drop (resultIndex event) (results event)),
     finalOf (drop (resultIndex event) (results event))).
Proof. unfold segments. by rewrite segments_fold. Qed.

(** X6: of the results of an event from resultIndex on, the loop of
    onresult gives the transcripts that are not final, one after the other,
    as interim text, and the final transcripts, each followed by a space,
    as final text; results below resultIndex count for neither. *)
Theorem segments_split (event : ResultEvent) :
  segments event
  = (interimOf (drop (resultIndex event) (results event)),
     finalOf (drop (resultIndex event) (results event))).
Proof. apply segments_interim_final. Qed.

Lemma finalOf_none l :
  forallb (fun res => negb (isFinal res)) l = true → finalOf l = "".
Proof.
  intros Hl. unfold finalOf.
  assert (List.filter isFinal l = []) as ->; [|done].
  induction l as [|res l IH]; [done|]. cbn in *.
  apply andb_true_iff in Hl as [Hr Hl]. destruct (isFinal res); [done|]. by apply IH.
Qed.

Section MoreComponentProperties.
Context `{Host}.

(** X7: an event none of whose new results is final replaces the interim
    text and does nothing else: no text is appended, no translation is
    requested, nothing is stored. *)
Theorem onresult_interim_only (r : View) (event : ResultEvent) (a : App) :
  forallb (fun res => negb (isFinal res)) (drop (resultIndex event) (results event)) = true →
  onresult r event a
  = setInterimText (interimOf (drop (resultIndex event) (results event))) a.
Proof.
  intros Hl. unfold onresult. rewrite segments_interim_final, finalOf_none by done. done.
Qed.

Lemma trimStart_cases l :
  (trimStart l = [] ∧ Forall (λ c, isWhiteSpace c = true) l)
  ∨ ∃ c l', trimStart l = c :: l' ∧ isWhiteSpace c = false.
Proof.
  induction l as [|c l IH]; [by left|]. cbn [trimStart].
  destruct (isWhiteSpace c) eqn:E.
  - destruct IH as [[-> Hl]|?]; [left|by right]. split; [done|]. by constructor.
  - right. by exists c, l.
Qed.

Lemma trimStart_white l : Forall (λ c, isWhiteSpace c = true) l → trimStart l = [].
Proof. induction 1 as [|c l Hc _ IH]; [done|]. cbn. by rewrite Hc. Qed.

Lemma str_nil l : str l = "" → l = [].
Proof. by destruct l. Qed.

Lemma trim_blank s :
  trim s = "" ↔ Forall (λ c, isWhiteSpace c = true) (units s).
Proof.
  unfold trim. split.
  - intros E%str_nil. apply (f_equal (@rev ascii)) in E. rewrite rev_involutive in E.
    cbn in E.
    destruct (trimStart_cases (units s)) as [[_ ?]|(c & l' & E1 & Hc)]; [done|].
    rewrite E1 in E.
    destruct (trimStart_cases (rev (c :: l'))) as [[_ Hall]|(d & l2 & E2 & Hd)].
    + rewrite Forall_forall in Hall. specialize (Hall c).
      rewrite Hall in Hc; [done|]. apply list_elem_of_In, in_rev.
      rewrite rev_involutive. by left.
    + by rewrite E2 in E.
  - intros Hl. rewrite (trimStart_white (units s)) by done. done.
Qed.

Lemma truthy_trim text :
  truthy (trim text) = negb (forallb isWhiteSpace (units text)).
Proof.
  unfold truthy. f_equal.
  destruct (String.eqb_spec (trim text) "") as [E|N];
    destruct (forallb isWhiteSpace (units text)) eqn:F; try done.
  - apply trim_blank in E. rewrite <- F. symmetry. apply forallb_forall.
    intros c Hc. rewrite Forall_forall in E. apply E. by apply list_elem_of_In.
  - destruct N. apply trim_blank. apply Forall_forall. intros c Hc.
    rewrite forallb_forall in F. apply F. by apply list_elem_of_In.
Qed.

(** X8: on a text of code units below 256 that consists of white space
    only (the empty text among them) translateText leaves the application
    as it is; on any other such text it adds one call, for that text and
    the render of the call, behind the calls in flight, sets isTranslating,
    clears the error and changes nothing else. *)
Theorem translateText_blank (r : View) (text : string) (a : App) :
  if forallb isWhiteSpace (units text)
  then translateText r text a = a
  else inFlight (translateText r text a) = inFlight a ++ [mkRequest text r]
       ∧ view (translateText r text a)
         = mkView (inputLang (view a)) (outputLang (view a)) (isListening (view a))
             (originalText (view a)) (translatedText (view a)) (interimText (view a))
             true (showDisclaimer (view a)) "" (sessions (view a))
       ∧ recognitionRef (translateText r text a) = recognitionRef a
       ∧ synthRef (translateText r text a) = synthRef a
       ∧ localStorage (translateText r text a) = localStorage a.
Proof.
  unfold translateText. rewrite truthy_trim.
  destruct (forallb isWhiteSpace (units text)); cbn [negb]; [done|].
  by repeat split.
Qed.

Example translateText_blank_texts (r : View) (a : App) :
  translateText r "" a = a
  ∧ translateText r (String "009" (String "160" " ")) a = a
  ∧ inFlight (translateText r " bp " a) = inFlight a ++ [mkRequest " bp " r].
Proof. repeat split; reflexivity. Qed.

(** *** Decoding a response *)

Lemma mapIndex0_cells (cells : list (string * list (json number))) :
  mapIndex0 (map (fun c => JArr (JStr c.1 :: c.2)) cells)
  = Normal (map (fun c => Some (JStr c.1)) cells).
Proof.
  induction cells as [|c cells IH]; [done|]. cbn [map mapIndex0 index0 head].
  rewrite IH. done.
Qed.

Lemma mapJoined_texts (cells : list (string * list (json number))) :
  mapJoined (map (fun c => Some (JStr c.1)) cells) = Normal (map fst cells).
Proof.
  induction cells as [|c cells IH]; [done|]. cbn [map mapJoined joined toString].
  rewrite IH. done.
Qed.

(** X9: a response whose first element is an array of sentences, each an
    array that starts with the translated text, decodes to the translated
    texts one after the other; what follows the first element and what
    follows the text in a sentence is not looked at. *)
Theorem translatedOf_sentences
    (cells : list (string * list (json number))) (rest : list (json number)) :
  translatedOf (JArr (JArr (map (fun c => JArr (JStr c.1 :: c.2)) cells) :: rest))
  = Normal (String.concat "" (map fst cells)).
Proof.
  unfold translatedOf. cbn [index0 head mbind Completion_bind].
  rewrite mapIndex0_cells. cbn [mbind Completion_bind].
  rewrite mapJoined_texts. done.
Qed.

Lemma mapIndex0_Normal items :
  (∃ xs, mapIndex0 items = Normal xs) ↔ Forall (λ i, i ≠ JNull) items.
Proof.
  induction items as [|i items IH]; [split; [constructor|by exists []]|].
  cbn [mapIndex0]. split.
  - intros [xs Hx].
    assert (i ≠ JNull) as Hi by (intros ->; done).
    constructor; [done|]. apply IH.
    destruct (index0 i); [|done]. cbn in Hx.
    destruct (mapIndex0 items) as [ys|]; [by exists ys|done].
  - intros Hi. inversion Hi as [|?? Hn Hrest]; subst. apply IH in Hrest as [xs ->].
    destruct i as [| | |[|]| |]; try done; cbn; by eexists.
Qed.

Lemma mapIndex0_Throw items e : mapIndex0 items = Throw e → e = TypeError.
Proof.
  revert e. induction items as [|i items IH]; intros e; [done|]. cbn [mapIndex0].
  destruct i as [| | |[|]| |]; cbn; try (by intros [= <-]);
    destruct (mapIndex0 items); try done; intros [= <-]; by apply IH.
Qed.

(** X10: the decoding of line 150 gives a text only if the first element
    of the response is an array none of whose items is null; when the first
    element is not an array, or some item of it is null, the decoding
    throws a TypeError. *)
Theorem translatedOf_failure (data : json number) :
  (∀ translated, translatedOf data = Normal translated →
     ∃ items, index0 data = Normal (Some (JArr items))
            ∧ Forall (λ i, i ≠ JNull) items)
  ∧ match index0 data with
    | Normal (Some (JArr items)) =>
        Exists (λ i, i = JNull) items → translatedOf data = Throw TypeError
    | _ => translatedOf data = Throw TypeError
    end.
Proof.
  unfold translatedOf. split.
  - intros t Ht. destruct (index0 data) as [[d|]|]; try done. cbn in Ht.
    destruct d as [| | | |items|]; try done. exists items. split; [done|].
    apply mapIndex0_Normal. destruct (mapIndex0 items) as [xs|]; [by exists xs|done].
  - destruct (index0 data) as [[d|]|e] eqn:E.
    + destruct d as [| | | |items|]; try done.
      intros Hex. cbn [mbind Completion_bind].
      destruct (mapIndex0 items) as [xs|e] eqn:Em.
      * exfalso. assert (Forall (λ i, i ≠ JNull) items) as Hall.
        { apply mapIndex0_Normal. by exists xs. }
        apply Exists_exists in Hex as (i & Hi & ->).
        rewrite Forall_forall in Hall. by apply (Hall JNull).
      * cbn. f_equal. by apply (mapIndex0_Throw items).
    + done.
    + cbn. f_equal. destruct data as [| | |[|]| |]; cbn in E; congruence.
Qed.

Example translatedOf_own_toString :
  translatedOf (JArr [JArr [JArr [JObj [("toString", JBool true)]]]]) = Throw TypeError
  ∧ translatedOf (JArr [JArr [JArr [JArr [JStr "a"; JNull; JStr "b"]]]]) = Normal "a,,b"
  ∧ translatedOf (JArr [JNull]) = Throw TypeError
  ∧ translatedOf (JArr [JArr [JArr []; JNull]]) = Throw TypeError.
Proof. repeat split; reflexivity. Qed.


(** ** What is stored and reloaded *)

(** X11: what saveSession stores, a reload reads back: on a host whose
    JSON.parse returns what JSON.stringify wrote and whose JSON.stringify
    never gives the empty text, a reload after saveSession ends with the
    sessions that saveSession kept. *)
Theorem saved_history_reloads
    (r : View) (original translated : string) (clock : Clock) (a : App) :
  readsBack → (∀ l, JSON_stringify l ≠ "") →
  ∃ a', step (saveSession r original translated clock a) Reload = Normal a'
      ∧ sessions (view a')
        = take 10 (mkSession (Date_now clock) (toISOString clock) (inputLang r)
                     (outputLang r) original translated :: sessions r).
Proof.
  intros Hrb Hne. cbn [step]. unfold mount, loadEffect.
  rewrite recognitionEffect_storage.
  cbn [localStorage saveSession setItem setStorage setSessions setView view sessions].
  rewrite lookup_insert_eq.
  assert (∀ l, truthy (JSON_stringify l) = true) as Ht.
  { intros l. unfold truthy. specialize (Hne l).
    by destruct (String.eqb_spec (JSON_stringify l) ""). }
  rewrite Ht, Hrb. cbn [mbind Completion_bind].
  eexists. split; [reflexivity|].
  destruct (truthyItem _); reflexivity.
Qed.

(** The effect of an event other than a reload on sessions and store. *)
Lemma step_history a e :
  e ≠ Reload →
  ∃ a', step a e = Normal a'
    ∧ ((sessions (view a') = sessions (view a) ∧ localStorage a' = localStorage a)
       ∨ (∃ l, length l ≤ 10 ∧ sessions (view a') = l
               ∧ localStorage a' = <[SESSIONS_KEY := JSON_stringify l]> (localStorage a))
       ∨ (sessions (view a') = []
          ∧ localStorage a' = delete SESSIONS_KEY (localStorage a))
       ∨ (sessions (view a') = sessions (view a)
          ∧ localStorage a' = <[DISCLAIMER_KEY := "true"]> (localStorage a))).
Proof.
  intros He. destruct e; try done; cbn [step]; eexists; (split; [reflexivity|]).
  - destruct (recognitionRef a) as [rec|]; [|by left].
    unfold onresult. destruct (segments event) as [interim final].
    destruct (truthy final); [|by left].
    unfold translateText. destruct (truthy _); by left.
  - destruct (recognitionRef a); by left.
  - destruct (recognitionRef a) as [rec|]; [|by left].
    unfold onend. destruct (isListening _); [|by left].
    cbn. destruct (start (stop rec)); by left.
  - destruct (inFlight a !! i) as [q|]; [|by left].
    unfold settle. destruct (received reply); [|by left].
    right; left.
    exists (take 10 (mkSession (Date_now clock) (toISOString clock)
                       (inputLang (request_render q)) (outputLang (request_render q))
                       (request_text q) a0 :: sessions (request_render q))).
    split; [rewrite length_take; lia|by split].
  - unfold toggleListening. destruct (recognitionRef a) as [rec|]; [|by left].
    destruct (isListening _); [by left|]. destruct (start _); by left.
  - unfold selectInputLang. destruct (String.eqb _ _); [by left|].
    rewrite recognitionEffect_storage, recognitionEffect_sessions. by left.
  - by left.
  - by left.
  - by do 2 right; left.
  - by do 3 right.
  - unfold speakText. destruct (truthy _); by left.
  - unfold speakText. destruct (truthy _); by left.
Qed.

Lemma mount_bounded sr voices store :
  readsBack → bounded store →
  ∃ a, mount sr voices store = Normal a
     ∧ localStorage a = store ∧ length (sessions (view a)) ≤ 10.
Proof.
  intros Hrb Hb. unfold bounded in Hb. unfold mount, loadEffect.
  rewrite recognitionEffect_storage. cbn [localStorage].
  assert (∀ a0 : App, localStorage a0 = store → length (sessions (view a0)) ≤ 10 →
    ∃ a, Normal (if truthyItem (localStorage a0 !! DISCLAIMER_KEY)
                 then setShowDisclaimer false a0 else a0) = Normal a
       ∧ localStorage a = store ∧ length (sessions (view a)) ≤ 10) as Hfin.
  { intros a0 Hs Hd. eexists. split; [done|]. by destruct (truthyItem _). }
  destruct (store !! SESSIONS_KEY) as [text|]; [destruct (truthy text)|].
  - destruct Hb as (l & Hl & ->). rewrite Hrb. cbn [mbind Completion_bind].
    apply Hfin; [exact (recognitionEffect_storage _ _)|done].
  - cbn [mbind Completion_bind].
    apply Hfin; [apply recognitionEffect_storage|].
    rewrite recognitionEffect_sessions. cbn. lia.
  - cbn [mbind Completion_bind].
    apply Hfin; [apply recognitionEffect_storage|].
    rewrite recognitionEffect_sessions. cbn. lia.
Qed.

Lemma step_bounded a e :
  readsBack → bounded (localStorage a) → length (sessions (view a)) ≤ 10 →
  ∃ a', step a e = Normal a'
    ∧ bounded (localStorage a') ∧ length (sessions (view a')) ≤ 10.
Proof.
  intros Hrb Hb Hl.
  assert (e = Reload ∨ e ≠ Reload) as [->|He] by (destruct e; (by left) || (by right)).
  - cbn [step]. destruct (mount_bounded (hasSpeechRecognition a)
      (getVoices (synthRef a)) (localStorage a) Hrb Hb) as (a' & -> & Hs & Hd).
    exists a'. by rewrite Hs.
  - destruct (step_history a e He) as (a' & Hstep & Hs). exists a'.
    split; [done|]. unfold bounded in *.
    assert (SESSIONS_KEY ≠ DISCLAIMER_KEY) as Hne by done.
    destruct Hs as [[Es El]|[(l & Hlen & Es & El)|[[Es El]|[Es El]]]]; rewrite Es, El.
    + done.
    + rewrite lookup_insert_eq. split; [by exists l|done].
    + rewrite lookup_delete_eq. split; [done|cbn; lia].
    + by rewrite lookup_insert_ne.
Qed.

Lemma run_bounded a es :
  readsBack → bounded (localStorage a) → length (sessions (view a)) ≤ 10 →
  ∃ a', run a es = Normal a'
    ∧ bounded (localStorage a') ∧ length (sessions (view a')) ≤ 10.
Proof.
  intros Hrb. revert a. induction es as [|e es IH]; intros a Hb Hl.
  - by exists a.
  - destruct (step_bounded a e Hrb Hb Hl) as (a1 & Hs & Hb1 & Hl1).
    destruct (IH a1 Hb1 Hl1) as (a' & Hr & ?).
    exists a'. cbn [run]. rewrite Hs. cbn [mbind Completion_bind]. done.
Qed.

(** X12: on such a host, started on a store whose history is absent or the
    text of at most ten sessions, the page loads, and along every sequence
    of events every reload loads it again; at the end the sessions of the
    state number at most ten, and the store keeps that form. *)
Theorem history_at_most_ten
    (sr : bool) (voices : list Voice) (store : gmap string string) (es : list Event) :
  readsBack → bounded store →
  ∃ a0 a, mount sr voices store = Normal a0
        ∧ run a0 es = Normal a
        ∧ length (sessions (view a)) ≤ 10
        ∧ bounded (localStorage a).
Proof.
  intros Hrb Hb.
  destruct (mount_bounded sr voices store Hrb Hb) as (a0 & Hm & Hs & Hl).
  rewrite <- Hs in Hb.
  destruct (run_bounded a0 es Hrb Hb Hl) as (a & Hr & Hb' & Hl').
  by exists a0, a.
Qed.

(** ** The handlers of the first render, in general *)

Lemma mount_env sr voices store a :
  mount sr voices store = Normal a →
  hasSpeechRecognition a = sr ∧ getVoices (synthRef a) = voices
  ∧ localStorage a = store ∧ inFlight a = []
  ∧ recognitionRef a
    = (if sr then Some (newSpeechRecognition initialView) else None)
  ∧ isListening (view a) = false ∧ originalText (view a) = ""
  ∧ translatedText (view a) = "" ∧ interimText (view a) = "".
Proof.
  unfold mount, loadEffect, recognitionEffect.
  cbn [hasSpeechRecognition localStorage].
  destruct sr; cbn [localStorage setRecognition setError setView];
    (destruct (store !! SESSIONS_KEY) as [text|]; [destruct (truthy text)|]);
    try destruct (JSON_parse text); cbn [mbind Completion_bind];
    try done; destruct (truthyItem _); by intros [= <-].
Qed.

Lemma step_firstRender a e a' :
  keepsInputLang e = true → firstRender a → step a e = Normal a' → firstRender a'.
Proof.
  intros He (Hsr & (rec & Hrec & Hh) & Hq). unfold firstRender.
  destruct e; try done; cbn [step]; rewrite ?Hrec.
  - intros [= <-]. unfold onresult. destruct (segments event) as [interim final].
    destruct (truthy final); [|by eauto].
    unfold translateText. destruct (truthy _); [|by eauto].
    cbn. split; [done|]. split; [by eauto|].
    apply Forall_app. split; [done|]. by repeat constructor.
  - intros [= <-]. cbn. eauto.
  - intros [= <-]. unfold onend. rewrite Hh. cbn. eauto.
  - intros [= <-]. destruct (inFlight a !! i) as [q|]; [|by eauto].
    unfold settle. destruct (received reply); cbn; (split; [done|]);
      (split; [by eauto|]); by apply Forall_delete.
  - intros [= <-]. unfold toggleListening. rewrite Hrec.
    destruct (isListening _); [cbn; by eauto|].
    destruct (start _) eqn:Es; cbn; [|by eauto].
    unfold start in Es. cbn in Es. destruct (started rec); [done|].
    injection Es as <-. cbn. eauto.
  - intros [= <-]. cbn. eauto.
  - intros [= <-]. cbn. eauto.
  - intros [= <-]. cbn. eauto.
  - intros [= <-]. cbn. eauto.
  - intros [= <-]. unfold speakText. destruct (truthy _); cbn; eauto.
  - intros [= <-]. unfold speakText. destruct (truthy _); cbn; eauto.
  - intros Hm. apply mount_env in Hm as (Hs & _ & _ & Hi & Hr & _).
    rewrite Hsr in Hr. rewrite Hs, Hi. split; [done|]. split; [by eauto|constructor].
Qed.

Lemma run_firstRender a es a' :
  forallb keepsInputLang es = true → firstRender a → run a es = Normal a' →
  firstRender a'.
Proof.
  revert a. induction es as [|e es IH]; intros a Hes Ha; [by intros [= <-]|].
  cbn in Hes. apply andb_true_iff in Hes as [He Hes]. cbn [run].
  destruct (step a e) as [a1|] eqn:Es; [|done]. cbn [mbind Completion_bind].
  eauto using step_firstRender.
Qed.

Lemma mount_firstRender voices store a :
  mount true voices store = Normal a → firstRender a.
Proof.
  intros (Hs & _ & _ & Hi & Hr & _)%mount_env. unfold firstRender.
  rewrite Hs, Hi, Hr. split; [done|]. split; [by eauto|constructor].
Qed.

(** X13: as long as the input language is not changed, the recognition
    handlers are those of the first render, whatever else happens (a change
    of the output language, reloads): so every translation in flight is
    requested from English to Spanish, with the text encoded in the query. *)
Theorem handlers_of_first_render
    (voices : list Voice) (store : gmap string string) (a0 a : App) (es : list Event) :
  mount true voices store = Normal a0 →
  forallb keepsInputLang es = true →
  run a0 es = Normal a →
  (∃ rec, recognitionRef a = Some rec ∧ handlers rec = initialView)
  ∧ Forall (λ q, requestUrl q
                 = "https://translate.googleapis.com/translate_a/single?client=gtx&sl=en&tl=es&dt=t&q="
                   +:+ encodeURIComponent (request_text q)) (inFlight a).
Proof.
  intros Hm Hes Hr.
  destruct (run_firstRender a0 es a Hes (mount_firstRender _ _ _ Hm) Hr)
    as (_ & Hrec & Hall).
  split; [done|]. eapply Forall_impl; [exact Hall|].
  intros q Hq. unfold requestUrl. by rewrite Hq.
Qed.

(** X14: as long as the input language is not changed, a successful
    response leaves exactly one session in the state, the new one, recorded
    as English to Spanish, and shows its translation. *)
Theorem saved_record_of_first_render
    (voices : list Voice) (store : gmap string string) (a0 a : App) (es : list Event)
    (i : nat) (q : Request) (reply : Reply) (translated : string) (clock : Clock) :
  mount true voices store = Normal a0 →
  forallb keepsInputLang es = true →
  run a0 es = Normal a →
  inFlight a !! i = Some q →
  received reply = Normal translated →
  ∃ a', step a (Response i reply clock) = Normal a'
      ∧ translatedText (view a') = translated
      ∧ sessions (view a')
        = [mkSession (Date_now clock) (toISOString clock) "en" "es"
             (request_text q) translated].
Proof.
  intros Hm Hes Hr Hq Hrep.
  destruct (run_firstRender a0 es a Hes (mount_firstRender _ _ _ Hm) Hr) as (_ & _ & Hall).
  rewrite Forall_forall in Hall.
  assert (request_render q = initialView) as Hrender
    by (apply Hall; by eapply list_elem_of_lookup_2).
  cbn [step]. rewrite Hq. unfold settle. rewrite Hrep, Hrender.
  eexists. split; [reflexivity|]. by split.
Qed.

(** X15: as long as the input language is not changed, the end of
    recognition does not start it again: the end event leaves the state of
    the view as it is (isListening included) and the recognition stopped. *)
Theorem end_does_not_restart
    (voices : list Voice) (store : gmap string string) (a0 a : App) (es : list Event) :
  mount true voices store = Normal a0 →
  forallb keepsInputLang es = true →
  run a0 es = Normal a →
  ∃ a' rec, step a RecognitionEnd = Normal a'
      ∧ view a' = view a
      ∧ recognitionRef a' = Some rec ∧ started rec = false.
Proof.
  intros Hm Hes Hr.
  destruct (run_firstRender a0 es a Hes (mount_firstRender _ _ _ Hm) Hr)
    as (_ & (rec & Hrec & Hh) & _).
  cbn [step]. rewrite Hrec. unfold onend. rewrite Hh. cbn.
  by exists (setRecognition (Some (stop rec)) a), (stop rec).
Qed.

(** ** A host without speech recognition *)

Lemma step_silent a e a' : silent a → step a e = Normal a' → silent a'.
Proof.
  intros (Hsr & Hrec & Hl & Hq & Ho & Ht & Hi). unfold silent.
  destruct e; cbn [step]; rewrite ?Hrec, ?Hq; try (intros [= <-]; by cbn).
  - intros [= <-]. unfold toggleListening. rewrite Hrec. by cbn.
  - intros [= <-]. unfold selectInputLang. destruct (String.eqb _ _); [done|].
    unfold recognitionEffect, recognitionCleanup. cbn. rewrite Hsr, Hrec. by cbn.
  - intros [= <-]. unfold speakText. by destruct (truthy _).
  - intros [= <-]. unfold speakText. by destruct (truthy _).
  - intros Hm. apply mount_env in Hm as (-> & _ & _ & -> & -> & -> & -> & -> & ->).
    by rewrite Hsr.
Qed.

(** X16: on a host without speech recognition, whatever the events, there
    is no recognition object, the application never listens, no translation
    is requested, and the three texts stay empty. *)
Theorem no_recognition_no_translation
    (voices : list Voice) (store : gmap string string) (a0 a : App) (es : list Event) :
  mount false voices store = Normal a0 →
  run a0 es = Normal a →
  recognitionRef a = None ∧ isListening (view a) = false ∧ inFlight a = []
  ∧ originalText (view a) = "" ∧ translatedText (view a) = ""
  ∧ interimText (view a) = "".
Proof.
  intros Hm Hr.
  assert (silent a0) as H0.
  { unfold silent. by apply mount_env in Hm as (-> & _ & _ & -> & -> & -> & -> & -> & ->). }
  assert (silent a) as (_ & ?).
  { clear Hm. revert a0 H0 Hr. induction es as [|e es IH]; intros a0 H0; [by intros [= <-]|].
    cbn [run]. destruct (step a0 e) as [a1|] eqn:Es; [|done]. cbn [mbind Completion_bind].
    eauto using step_silent. }
  done.
Qed.

(** ** Reload, toggle, speech *)

(** X17: a reload that succeeds changes nothing that a second reload
    depends on: reloading again gives the same application. *)
Theorem reload_twice (a a1 : App) :
  step a Reload = Normal a1 → step a1 Reload = Normal a1.
Proof.
  cbn [step]. intros Hm.
  destruct (mount_env _ _ _ _ Hm) as (-> & -> & -> & _). exact Hm.
Qed.

(** X18: when the input language is a language of the catalog, the
    recognition is not started and the state is not listening,
    toggleListening gives the recognition the locale tag of that language
    (es-ES for es), starts it, clears the error and sets isListening;
    called again it stops the recognition, clears isListening and the
    interim text, and keeps the locale tag and the handlers. *)
Theorem toggle_twice (a : App) (rec : SpeechRecognition) (l : Language) :
  l ∈ LANGUAGES → inputLang (view a) = code l →
  recognitionRef a = Some rec → started rec = false → isListening (view a) = false →
  let a1 := toggleListening (view a) a in
  let a2 := toggleListening (view a1) a1 in
  isListening (view a1) = true
  ∧ error (view a1) = ""
  ∧ recognitionRef a1
    = Some (mkSpeechRecognition (continuous rec) (interimResults rec)
              (voice l) true (handlers rec))
  ∧ isListening (view a2) = false
  ∧ interimText (view a2) = ""
  ∧ recognitionRef a2
    = Some (mkSpeechRecognition (continuous rec) (interimResults rec)
              (voice l) false (handlers rec)).
Proof.
  intros Hin Hlang Hrec Hs Hl a1 a2.
  destruct (catalog_locale l Hin) as (Hv & Hor & _).
  assert (orEnUS (voiceOf (inputLang (view a))) = voice l) as Hloc
    by (by rewrite Hlang, Hv).
  assert (a1 = setIsListening true
                 (setRecognition
                    (Some (mkSpeechRecognition (continuous rec) (interimResults rec)
                             (voice l) true (handlers rec)))
                    (setRecognition (Some (setLang (voice l) rec)) (setError "" a)))) as E1.
  { subst a1. unfold toggleListening. rewrite Hrec, Hl, Hloc. unfold start.
    cbn [setLang started]. by rewrite Hs. }
  subst a2. rewrite E1. unfold toggleListening. cbn. by repeat split.
Qed.

End MoreComponentProperties.

(** X19: of two calls of speakText the second, on a text that is not
    empty, decides alone: the utterance of the first is cancelled and the
    result is that of the second call on the state before the first. *)
Theorem speakText_last_wins (t1 l1 l2 : string) (c : ascii) (t : string) (a : App) :
  speakText (String c t) l2 (speakText t1 l1 a) = speakText (String c t) l2 a.
Proof. unfold speakText. cbn [truthy String.eqb negb]. by destruct (truthy t1). Qed.

(** ** The request URL *)

Lemma encodeUnit_safe c :
  forallb (fun d => isUnreserved d || Ascii.eqb d "%") (encodeUnit c) = true.
Proof. destruct c as [[] [] [] [] [] [] [] []]; vm_compute; reflexivity. Qed.

Lemma decodeUnit_encodeUnit c rest :
  decodeUnit (encodeUnit c ++ rest) = Some (c, rest).
Proof. destruct c as [[] [] [] [] [] [] [] []]; reflexivity. Qed.

(** X20: the encoded text of a request holds unreserved characters and
    percent signs only: no text can add a parameter to the URL or end its
    query. *)
Theorem encoded_text_is_safe (text : string) :
  forallb (fun d => isUnreserved d || Ascii.eqb d "%") (units (encodeURIComponent text))
  = true.
Proof.
  unfold encodeURIComponent. rewrite units_str.
  induction (units text) as [|c l IH]; [done|].
  cbn [map concat]. rewrite forallb_app, IH, encodeUnit_safe. done.
Qed.

Lemma encodeUnits_inj l1 l2 :
  concat (map encodeUnit l1) = concat (map encodeUnit l2) → l1 = l2.
Proof.
  revert l2. induction l1 as [|c1 l1 IH]; intros [|c2 l2]; cbn [map concat]; intros E.
  - done.
  - apply (f_equal decodeUnit) in E. by rewrite decodeUnit_encodeUnit in E.
  - apply (f_equal decodeUnit) in E. by rewrite decodeUnit_encodeUnit in E.
  - apply (f_equal decodeUnit) in E. rewrite !decodeUnit_encodeUnit in E.
    injection E as -> E. f_equal. by apply IH.
Qed.

Lemma str_inj l1 l2 : str l1 = str l2 → l1 = l2.
Proof. intros E. apply (f_equal units) in E. by rewrite !units_str in E. Qed.

Lemma units_inj s1 s2 : units s1 = units s2 → s1 = s2.
Proof. intros E. apply (f_equal str) in E. by rewrite !str_units in E. Qed.

(** X21: two texts are encoded alike only when they are the same text, so
    requests for different texts in the same languages have different
    URLs. *)
Theorem encoding_is_injective (r : View) (s1 s2 : string) :
  translateUrl r s1 = translateUrl r s2 ↔ s1 = s2.
Proof.
  split; [|by intros ->]. unfold translateUrl. intros E.
  repeat apply (inj (String.append _)) in E.
  apply str_inj, encodeUnits_inj in E. by apply units_inj.
Qed.

Example encodeURIComponent_example :
  encodeURIComponent "bp & hr?" = "bp%20%26%20hr%3F"
  ∧ encodeURIComponent (String "233" "") = "%C3%A9".
Proof. split; reflexivity. Qed.

(** ** Closed instances of the further properties *)

Lemma sampleHost_readsBack : @readsBack sampleHost.
Proof. intros l. cbn. rewrite ofDigits_digitsOf. cbn. by rewrite decode_encode. Qed.

Lemma sampleHost_stringify_nonempty : ∀ l, @JSON_stringify sampleHost l ≠ "".
Proof. done. Qed.

Lemma onresult_interim_only_witness :
  onresult initialView
    (mkResultEvent 1 [mkSpeechResult "hello" true; mkSpeechResult "wor" false])
    (mkApp initialView None (mkSpeechSynthesis [] []) ∅ [] true)
  = setInterimText "wor" (mkApp initialView None (mkSpeechSynthesis [] []) ∅ [] true).
Proof.
  apply (onresult_interim_only initialView
           (mkResultEvent 1 [mkSpeechResult "hello" true; mkSpeechResult "wor" false])).
  reflexivity.
Defined.

Lemma saved_history_reloads_witness :
  ∃ a', @step sampleHost
          (@saveSession sampleHost initialView "bp " "presion" (mkClock 7 "t")
             (mkApp initialView None (mkSpeechSynthesis [] []) ∅ [] true)) Reload
        = Normal a'
      ∧ sessions (view a') = [mkSession 7 "t" "en" "es" "bp " "presion"].
Proof.
  apply (@saved_history_reloads sampleHost initialView "bp " "presion" (mkClock 7 "t")
           (mkApp initialView None (mkSpeechSynthesis [] []) ∅ [] true)
           sampleHost_readsBack sampleHost_stringify_nonempty).
Defined.

Lemma history_at_most_ten_witness :
  ∃ a0 a, @mount sampleHost true []
            {[ SESSIONS_KEY := @JSON_stringify sampleHost tenSessions ]} = Normal a0
        ∧ @run sampleHost a0 (oneMoreTranslation ++ [Reload]) = Normal a
        ∧ length (sessions (view a)) ≤ 10
        ∧ @bounded sampleHost (localStorage a).
Proof.
  apply (@history_at_most_ten sampleHost true []
           {[ SESSIONS_KEY := @JSON_stringify sampleHost tenSessions ]}
           (oneMoreTranslation ++ [Reload]) sampleHost_readsBack).
  unfold bounded. rewrite lookup_singleton_eq. exists tenSessions. split; [|done].
  vm_compute. lia.
Defined.

(** On the store of that instance the bound is reached: ten sessions are
    loaded, and after one more translation and a reload there are ten
    again, the new one first and the oldest gone. *)
Example history_full_stays_full :
  ∃ a0 a, @mount sampleHost true []
            {[ SESSIONS_KEY := @JSON_stringify sampleHost tenSessions ]} = Normal a0
        ∧ sessions (view a0) = tenSessions
        ∧ @run sampleHost a0 (oneMoreTranslation ++ [Reload]) = Normal a
        ∧ sessions (view a)
          = mkSession 11 "2025-01-01T00:00:00.000Z" "fr" "es" "blood pressure " "tension"
              :: take 9 tenSessions
        ∧ length (sessions (view a)) = 10.
Proof.
  eexists _, _. split; [vm_compute; reflexivity|].
  split; [reflexivity|]. split; [vm_compute; reflexivity|].
  split; reflexivity.
Qed.

Lemma handlers_of_first_render_witness :
  ∃ a0 a, @mount sampleHost true [] ∅ = Normal a0
        ∧ @run sampleHost a0 threeUtterances = Normal a
        ∧ outputLang (view a) = "fr"
        ∧ Forall (λ q, requestUrl q
                    = "https://translate.googleapis.com/translate_a/single?client=gtx&sl=en&tl=es&dt=t&q="
                      +:+ encodeURIComponent (request_text q)) (inFlight a).
Proof.
  eexists _, _. split; [reflexivity|]. split; [vm_compute; reflexivity|].
  split; [reflexivity|].
  eapply (@handlers_of_first_render sampleHost [] ∅ _ _ threeUtterances);
    [reflexivity|reflexivity|vm_compute; reflexivity].
Defined.

Lemma saved_record_of_first_render_witness :
  ∃ a0 a, @mount sampleHost true [] ∅ = Normal a0
        ∧ @run sampleHost a0 threeUtterances = Normal a
        ∧ outputLang (view a) = "fr"
        ∧ ∃ a', @step sampleHost a (Response 2 (Body (JArr [JArr [JArr [JStr "repos"]]]))
                                      (mkClock 9 "t")) = Normal a'
              ∧ sessions (view a') = [mkSession 9 "t" "en" "es" "rest " "repos"].
Proof.
  eexists _, _. split; [reflexivity|].
  lazymatch goal with |- run ?a0 _ = _ ∧ _ => pose (A0 := a0) end.
  split; [vm_compute; reflexivity|].
  split; [reflexivity|].
  lazymatch goal with
  | |- ∃ a', step ?a _ = _ ∧ _ =>
      edestruct (@saved_record_of_first_render sampleHost [] ∅ A0 a threeUtterances 2
                   (mkRequest "rest " initialView)
                   (Body (JArr [JArr [JArr [JStr "repos"]]])) "repos" (mkClock 9 "t"))
        as (a' & Hs & _ & Hh)
  end; [reflexivity|reflexivity|vm_compute; reflexivity|reflexivity|reflexivity|].
  exists a'. by split.
Defined.

Lemma end_does_not_restart_witness :
  ∃ a0 a, @mount sampleHost true [] ∅ = Normal a0
        ∧ @run sampleHost a0 [ClickAccept; ClickToggle] = Normal a
        ∧ isListening (view a) = true
        ∧ ∃ a' rec, @step sampleHost a RecognitionEnd = Normal a'
              ∧ isListening (view a') = true
              ∧ recognitionRef a' = Some rec ∧ started rec = false.
Proof.
  eexists _, _. split; [reflexivity|].
  lazymatch goal with |- run ?a0 _ = _ ∧ _ => pose (A0 := a0) end.
  split; [vm_compute; reflexivity|].
  split; [reflexivity|].
  lazymatch goal with
  | |- ∃ a' rec, step ?a _ = _ ∧ _ =>
      edestruct (@end_does_not_restart sampleHost [] ∅ A0 a [ClickAccept; ClickToggle])
        as (a' & rec & Hs & Hv & Hr & Hst)
  end; [reflexivity|reflexivity|vm_compute; reflexivity|].
  exists a', rec. rewrite Hv. by repeat split.
Defined.

Lemma no_recognition_no_translation_witness :
  ∃ a0 a, @mount sampleHost false [] ∅ = Normal a0
        ∧ @run sampleHost a0 (twoBatches ++ [SelectInput "fr"; ClickToggle]) = Normal a
        ∧ inFlight a = [] ∧ originalText (view a) = "".
Proof.
  eexists _, _. split; [reflexivity|].
  lazymatch goal with |- run ?a0 _ = _ ∧ _ => pose (A0 := a0) end.
  split; [vm_compute; reflexivity|].
  lazymatch goal with
  | |- inFlight ?a = _ ∧ _ =>
      edestruct (@no_recognition_no_translation sampleHost [] ∅ A0 a
                   (twoBatches ++ [SelectInput "fr"; ClickToggle]))
        as (_ & _ & Hq & Ho & _)
  end; [reflexivity|vm_compute; reflexivity|].
  by split.
Defined.

Lemma reload_twice_witness :
  ∃ a1, @step sampleHost (mkApp initialView None (mkSpeechSynthesis [] []) ∅ [] true) Reload
        = Normal a1
      ∧ @step sampleHost a1 Reload = Normal a1.
Proof.
  eexists. split; [reflexivity|].
  apply (@reload_twice sampleHost (mkApp initialView None (mkSpeechSynthesis [] []) ∅ [] true)).
  reflexivity.
Defined.

Lemma toggle_twice_witness :
  let a := mkApp (mkView "es" "en" false "" "" "" false false "" [])
             (Some (newSpeechRecognition initialView))
             (mkSpeechSynthesis [] []) ∅ [] true in
  let a1 := toggleListening (view a) a in
  let a2 := toggleListening (view a1) a1 in
  recognition_lang (newSpeechRecognition initialView) = "en-US"
  ∧ isListening (view a1) = true
  ∧ recognition_lang <$> recognitionRef a1 = Some "es-ES"
  ∧ started <$> recognitionRef a1 = Some true
  ∧ isListening (view a2) = false
  ∧ recognitionRef a2 = Some (mkSpeechRecognition true true "es-ES" false initialView).
Proof.
  destruct (toggle_twice
              (mkApp (mkView "es" "en" false "" "" "" false false "" [])
                 (Some (newSpeechRecognition initialView))
                 (mkSpeechSynthesis [] []) ∅ [] true)
              (newSpeechRecognition initialView)
              (mkLanguage "es" "Spanish" "es-ES"))
    as (H1 & _ & H2 & H3 & _ & H4);
    [by apply list_elem_of_In; right; left|reflexivity..|].
  cbv zeta in *. rewrite H1, H2, H3, H4. by repeat split.
Defined.
